(** * apt-local: install-set resolution and package specifiers

    A shallow embedding of [apt-local.py]: the [install], [fetch] and
    [show] commands, the generator [iter_pkg_versions] they share, and the
    options [init] sets.  The python-apt package index they drive is an
    in-memory association list in the index's iteration order; the text
    of a record and its interpolation into a format are taken as given.
    Creating the cache directories and synchronising the index
    ([update]) and argument parsing are calls into the operating system,
    apt and argparse, and are not modelled. *)

From Stdlib Require Import List String Ascii Bool Arith PeanoNat NArith ZArith Lia Sorted.
From Stdlib Require Import OrderedTypeEx.
Import ListNotations.
Local Open Scope string_scope.
Local Open Scope list_scope.

(* ================================================================== *)
(** ** Python strings

    A [str] is a [string]; its characters are code points below 256. *)

(** [sep in name], for a one-character [sep]. *)
Fixpoint contains (sep : ascii) (s : string) : bool :=
  match s with
  | EmptyString => false
  | String c r => Ascii.eqb c sep || contains sep r
  end.

(** Number of occurrences of [sep], [name.count(sep)]. *)
Fixpoint count (sep : ascii) (s : string) : nat :=
  match s with
  | EmptyString => 0
  | String c r => (if Ascii.eqb c sep then 1 else 0) + count sep r
  end.

(** [name.split(sep)] without [maxsplit]: cuts at every occurrence. *)
Fixpoint split (sep : ascii) (s : string) : list string :=
  match s with
  | EmptyString => [EmptyString]
  | String c r =>
      if Ascii.eqb c sep then EmptyString :: split sep r
      else match split sep r with
           | h :: t => String c h :: t
           | [] => [String c EmptyString]
           end
  end.

(** [str.isspace] on one character (code points below 256). *)
Definition isspace (c : ascii) : bool :=
  let n := nat_of_ascii c in
  (((9 <=? n) && (n <=? 13)) || ((28 <=? n) && (n <=? 32))
   || (n =? 133) || (n =? 160))%nat.

Fixpoint lstrip (s : string) : string :=
  match s with
  | EmptyString => EmptyString
  | String c r => if isspace c then lstrip r else s
  end.

Fixpoint rstrip (s : string) : string :=
  match s with
  | EmptyString => EmptyString
  | String c r =>
      match rstrip r with
      | EmptyString => if isspace c then EmptyString else String c EmptyString
      | r' => String c r'
      end
  end.

(** [l.strip()]. *)
Definition strip (s : string) : string := rstrip (lstrip s).

(* ================================================================== *)
(** ** The package index (python-apt's [apt.Cache])

    Modelled from the spec: the package index is python-apt, an external
    collaborator that is not part of the repository.  Its data is what
    sections 3 and 6 of the specification list: packages keyed by name,
    each with versions, a candidate, the essential flag, and the
    install-intent flag with its reason; a version has a priority and the
    names it depends on. *)

Record Version : Type := mkVersion {
  version : string;
  priority : string;
  dependencies : list string
}.

(** A package of the index always has a candidate here: the commands
    read [pkg.candidate.priority] and [pkg.candidate.version] without a
    test. *)
Record Package : Type := mkPackage {
  name : string;
  versions : list Version;
  candidate : Version;
  essential : bool;
  marked_install : bool;
  is_auto_installed : bool
}.

(** The list order is the order in which [for pkg in cache] yields.
    python-apt yields the packages of an index by ascending name, so the
    list of a loaded index ascends ([in_key_order] below). *)
Definition Cache : Type := list Package.

Definition names (c : Cache) : list string := map name c.

(** Package names are the unique key of the index. *)
Definition wf_cache (c : Cache) : Prop := NoDup (names c).

(** [cache[key]]; [None] is python-apt's [KeyError]. *)
Definition cache_getitem (key : string) (c : Cache) : option Package :=
  find (fun p => name p =? key) c.

(** [pkg.versions[item]] for a string [item]; [None] is [KeyError]. *)
Definition versions_getitem (item : string) (vs : list Version) : option Version :=
  find (fun v => version v =? item) vs.

(** In-place update of the package called [key]. *)
Definition update (key : string) (f : Package -> Package) (c : Cache) : Cache :=
  map (fun p => if name p =? key then f p else p) c.

(** [pkg.candidate = ver]. *)
Definition with_candidate (ver : Version) (p : Package) : Package :=
  mkPackage (name p) (versions p) ver (essential p)
            (marked_install p) (is_auto_installed p).

(** The install-intent flag is set; [auto] records the reason. *)
Definition with_mark (auto : bool) (p : Package) : Package :=
  mkPackage (name p) (versions p) (candidate p) (essential p) true auto.

(** Modelled from the spec: the dependency-aware half of the index's
    [mark_install] (python-apt, not in the repository).  Every listed
    dependency that is in the index and not yet marked is marked with
    the automatic reason, and so are, transitively, the dependencies of
    its candidate.  Each nested call has marked one more package, so the
    number of packages bounds the depth. *)
Fixpoint mark_dependencies (fuel : nat) (deps : list string) (c : Cache) : Cache :=
  match fuel with
  | O => c
  | S fuel' =>
      fold_left
        (fun c' d =>
           match cache_getitem d c' with
           | Some p =>
               if marked_install p then c'
               else mark_dependencies fuel' (dependencies (candidate p))
                                      (update d (with_mark true) c')
           | None => c'
           end)
        deps c
  end.

(** Modelled from the spec: [pkg.mark_install()] of the index
    collaborator (python-apt, not in the repository): "triggers
    transitive dependency marking".  The package itself is marked with
    the manual reason ([from_user] defaults to true). *)
Definition mark_install (key : string) (c : Cache) : Cache :=
  match cache_getitem key c with
  | Some p =>
      mark_dependencies (List.length c) (dependencies (candidate p))
                        (update key (with_mark false) c)
  | None => c
  end.

(* ================================================================== *)
(** ** Exceptions, the world, and the command monad *)

Inductive Exception : Type :=
| KeyError_package (key : string)      (* cache[name] *)
| KeyError_version (key : string)      (* versions[version] *)
| ValueError_unpack (got : nat)        (* name, version = name.split(sep) *)
| IOError (path : string)              (* open(path, 'r') *)
| IndexError.                          (* opts.packages[0] *)

Inductive Result (A : Type) : Type :=
| Return (a : A)
| Raise (e : Exception).
Arguments Return {A} a.
Arguments Raise {A} e.

(** A fetched binary package: [fetch_binary(destdir)] on a version. *)
Record Artifact : Type := mkArtifact {
  art_name : string;
  art_version : string;
  art_dest : string
}.

(** What a command can read and change: the in-memory index, the lines
    printed to [opts.output], and the binaries downloaded so far. *)
Record World : Type := mkWorld {
  index : Cache;
  output : list string;
  archives : list Artifact
}.

(** A command: it may change the world and either returns or raises. A
    raise keeps the changes made up to it, as a Python exception does. *)
Definition M (A : Type) : Type := World -> World * Result A.

Definition ret {A} (a : A) : M A := fun w => (w, Return a).
Definition raise {A} (e : Exception) : M A := fun w => (w, Raise e).
Definition bind {A B} (m : M A) (k : A -> M B) : M B :=
  fun w => match m w with
           | (w', Return a) => k a w'
           | (w', Raise e) => (w', Raise e)
           end.
Definition lift {A} (r : Result A) : M A := fun w => (w, r).

Notation "x <- m ;; k" := (bind m (fun x => k))
  (at level 61, m at next level, right associativity).
Notation "m ;; k" := (bind m (fun _ => k))
  (at level 61, right associativity).

Definition modify_index (f : Cache -> Cache) : M unit :=
  fun w => (mkWorld (f (index w)) (output w) (archives w), Return tt).

(** [print(line, file=opts.output)]. *)
Definition print (line : string) : M unit :=
  fun w => (mkWorld (index w) (output w ++ [line]) (archives w), Return tt).

(** [cache[name]] as a command; a package object is a handle on the
    shared index, so the command returns the key it is found under. *)
Definition getitem (key : string) : M string :=
  fun w => match cache_getitem key (index w) with
           | Some p => (w, Return (name p))
           | None => (w, Raise (KeyError_package key))
           end.

(** Reads a field of the package behind a handle. *)
Definition read {A} (pkg : string) (field : Package -> A) : M A :=
  fun w => match cache_getitem pkg (index w) with
           | Some p => (w, Return (field p))
           | None => (w, Raise (KeyError_package pkg))
           end.

(** [for x in xs: body(x)]; the first raise ends the loop. *)
Fixpoint for_each {A} (xs : list A) (body : A -> M unit) : M unit :=
  match xs with
  | [] => ret tt
  | x :: rest => body x ;; for_each rest body
  end.

(* ================================================================== *)
(** ** [iter_pkg_versions] *)

(** [name, version = name.split(sep)]. *)
Definition unpack2 (parts : list string) : Result (string * string) :=
  match parts with
  | [n; v] => Return (n, v)
  | _ => Raise (ValueError_unpack (List.length parts))
  end.

(** The [for sep in ('=', '_')] loop with its [else] branch: what the
    token names, before anything is looked up.  The loop is left at the
    first separator found in the token. *)
Fixpoint scan (seps : list ascii) (token : string) : Result (string * option string) :=
  match seps with
  | sep :: seps' =>
      if contains sep token then
        match unpack2 (split sep token) with
        | Return (n, v) => Return (n, Some v)
        | Raise e => Raise e
        end
      else scan seps' token
  | [] => Return (token, None)
  end.

Definition separators : list ascii := ["="%char; "_"%char].

Definition parse (token : string) : Result (string * option string) :=
  scan separators token.

Definition lookup_version (item : string) (vs : list Version) : Result Version :=
  match versions_getitem item vs with
  | Some ver => Return ver
  | None => Raise (KeyError_version item)
  end.

(** One turn of the generator's loop, up to [yield pkg]. *)
Definition next_pkg (token : string) : M string :=
  spec <- lift (parse token) ;;
  match spec with
  | (n, Some v) =>
      pkg <- getitem n ;;
      vs <- read n versions ;;
      ver <- lift (lookup_version v vs) ;;
      modify_index (update pkg (with_candidate ver)) ;;
      ret pkg
  | (n, None) => getitem n
  end.

(** [for pkg in iter_pkg_versions(cache, pkg_names): body(pkg)].  The
    generator is resumed only after the body has run on what it
    yielded, so the two interleave token by token. *)
Definition iter_pkg_versions (pkg_names : list string) (body : string -> M unit) : M unit :=
  for_each pkg_names (fun token => pkg <- next_pkg token ;; body pkg).

(* ================================================================== *)
(** ** [cmd_install] *)

Record InstallOpts : Type := mkInstallOpts {
  install_packages : list string;        (* opts.packages *)
  install_file : list (list string)      (* opts.file: what list(stream) gives for each *)
}.

(** Lines 100-102: install all essential and required by default. *)
Definition mark_defaults (c : Cache) : Cache :=
  fold_left
    (fun c' key =>
       match cache_getitem key c' with
       | Some pkg =>
           if essential pkg || (priority (candidate pkg) =? "required")
           then mark_install key c' else c'
       | None => c'
       end)
    (names c) c.

(** Lines 104-108: which tokens are requested.  Each stream rebinds
    [pkgs]. *)
Definition requested (opts : InstallOpts) : list string :=
  match install_file opts with
  | [] => install_packages opts
  | streams => fold_left (fun _ stream => map strip stream) streams []
  end.

(** Lines 98-111: the body of [with cache.actiongroup()]. *)
Definition plan (pkgs : list string) : M unit :=
  modify_index mark_defaults ;;
  iter_pkg_versions pkgs (fun pkg => modify_index (mark_install pkg)).

(** [InstallFilter.apply]. *)
Definition InstallFilter_apply (pkg : Package) : bool := marked_install pkg.

(** [self._filtered[pkg.name] = True] on an insertion-ordered dict. *)
Definition dict_set (key : string) (d : list string) : list string :=
  if existsb (String.eqb key) d then d else d ++ [key].

(** [FilteredCache.set_filter]: the keys of [_filtered]. *)
Definition set_filter (apply : Package -> bool) (c : Cache) : list string :=
  fold_left
    (fun d key =>
       match cache_getitem key c with
       | Some pkg => if apply pkg then dict_set (name pkg) d else d
       | None => d
       end)
    (names c) [].

(** ['%s=%s' % (pkg.name, pkg.candidate.version)]. *)
Definition entry_line (e : string * string) : string :=
  fst e ++ "=" ++ snd e.

(** Lines 113-118: filter the index and print what it yields. *)
Definition print_snapshot : M unit :=
  fun w =>
    for_each (set_filter InstallFilter_apply (index w))
      (fun key =>
         n <- read key name ;;
         v <- read key (fun p => version (candidate p)) ;;
         print (entry_line (n, v)))
      w.

Definition cmd_install (opts : InstallOpts) : M Z :=
  plan (requested opts) ;;
  print_snapshot ;;
  ret 0%Z.

(** The [(name, resolved_version)] pairs behind the printed lines. *)
Definition snapshot (c : Cache) : list (string * string) :=
  flat_map
    (fun key =>
       match cache_getitem key c with
       | Some pkg => [(name pkg, version (candidate pkg))]
       | None => []
       end)
    (set_filter InstallFilter_apply c).

(* ================================================================== *)
(** ** [cmd_fetch] *)

Record FetchOpts : Type := mkFetchOpts {
  fetch_dest : string;                   (* opts.dest *)
  fetch_packages : list string;          (* opts.packages *)
  fetch_file : bool                      (* opts.file *)
}.

(** [pkg.candidate.fetch_binary(destdir=dest)]; the download itself
    belongs to the index and is taken to succeed. *)
Definition fetch_binary (pkg : string) (dest : string) : M unit :=
  n <- read pkg name ;;
  v <- read pkg (fun p => version (candidate p)) ;;
  fun w => (mkWorld (index w) (output w) (archives w ++ [mkArtifact n v dest]),
            Return tt).

(** Lines 125-128: which tokens are requested.  [fs] gives the lines of
    the files that can be opened for reading. *)
Definition fetch_requested (fs : string -> option (list string)) (opts : FetchOpts)
  : Result (list string) :=
  if fetch_file opts then
    match fetch_packages opts with
    | path :: _ =>
        match fs path with
        | Some lines => Return (map strip lines)
        | None => Raise (IOError path)
        end
    | [] => Raise IndexError
    end
  else Return (fetch_packages opts).

Definition cmd_fetch (fs : string -> option (list string)) (opts : FetchOpts) : M Z :=
  pkgs <- lift (fetch_requested fs opts) ;;
  iter_pkg_versions pkgs (fun pkg => fetch_binary pkg (fetch_dest opts)) ;;
  ret 0%Z.

(* ================================================================== *)
(** ** Orders on names *)




(* ================================================================== *)
(** ** Sample indexes *)

Definition ver (v prio : string) (deps : list string) : Version :=
  mkVersion v prio deps.

Definition pkg0 (n : string) (vs : list Version) (cand : Version) (ess : bool) : Package :=
  mkPackage n vs cand ess false false.

(** The index of the specification's default-closure example. *)
Definition abc : Cache :=
  [ pkg0 "A" [ver "1.0" "optional" []; ver "2.0" "optional" []]
         (ver "1.0" "optional" []) true;
    pkg0 "B" [ver "1" "required" []] (ver "1" "required" []) false;
    pkg0 "C" [ver "3" "optional" []] (ver "3" "optional" []) false ].

(** An essential package that depends on an optional one. *)
Definition with_dep : Cache :=
  [ pkg0 "base" [ver "1" "optional" ["libz"]] (ver "1" "optional" ["libz"]) true;
    pkg0 "libz" [ver "1" "optional" []] (ver "1" "optional" []) false;
    pkg0 "game" [ver "1" "optional" []] (ver "1" "optional" []) false ].

Definition world0 (c : Cache) : World := mkWorld c [] [].

(* ================================================================== *)
(** ** What the index operations leave alone *)

(** Identity of a package: no operation of the index changes it. *)
Definition kept (p p' : Package) : Prop :=
  name p' = name p /\ versions p' = versions p /\ essential p' = essential p.

(** Marking: the candidate stays, a set flag stays set. *)
Definition grows (p p' : Package) : Prop :=
  kept p p' /\ candidate p' = candidate p /\
  (marked_install p = true -> marked_install p' = true).

(** Pinning: only the candidate moves. *)
Definition repins (p p' : Package) : Prop :=
  kept p p' /\ marked_install p' = marked_install p /\
  is_auto_installed p' = is_auto_installed p.

(** What [next_pkg] will do with a token on an index, read off the names
    and versions alone. *)
Definition resolution (c : Cache) (token : string) : Result (string * option Version) :=
  match parse token with
  | Raise e => Raise e
  | Return (n, ov) =>
      match cache_getitem n c with
      | None => Raise (KeyError_package n)
      | Some p =>
          match ov with
          | None => Return (n, None)
          | Some v =>
              match lookup_version v (versions p) with
              | Return ver => Return (n, Some ver)
              | Raise e => Raise e
              end
          end
      end
  end.

Definition resolvable (c : Cache) (token : string) : bool :=
  match resolution c token with
  | Return _ => true
  | Raise _ => false
  end.

(** The condition of the default pass. *)
Definition is_default (pkg : Package) : bool :=
  essential pkg || (priority (candidate pkg) =? "required").

(** The same package with another install reason. *)
Definition with_reason (auto : bool) (p : Package) : Package :=
  mkPackage (name p) (versions p) (candidate p) (essential p)
            (marked_install p) auto.

(** The exception of the first token that does not resolve, if any. *)
Fixpoint first_error (c : Cache) (pkgs : list string) : option Exception :=
  match pkgs with
  | [] => None
  | token :: rest =>
      match resolution c token with
      | Raise e => Some e
      | Return _ => first_error c rest
      end
  end.

(** How a loop over [iter_pkg_versions] ends on an index. *)
Definition outcome (c : Cache) (pkgs : list string) : Result unit :=
  match first_error c pkgs with
  | Some e => Raise e
  | None => Return tt
  end.

(** What install may change while it plans: the index, and in it only
    candidates, flags and reasons. *)
Definition planning (w w' : World) : Prop :=
  Forall2 kept (index w) (index w') /\ output w' = output w /\
  archives w' = archives w.

(** The artifact fetched for a token. *)
Definition fetched_for (dest token : string) (art : Artifact) : Prop :=
  exists n ov, parse token = Return (n, ov) /\ art_name art = n /\
               art_dest art = dest /\
               forall v, ov = Some v -> art_version art = v.

(* ================================================================== *)
(** ** Dependency closure *)

(** [pkg.marked_install] of [cache[key]], false for an unknown key. *)
Definition flag (c : Cache) (key : string) : bool :=
  match cache_getitem key c with
  | Some p => marked_install p
  | None => false
  end.

(** The dependencies of the candidate of [cache[key]]. *)
Definition deps_of (c : Cache) (key : string) : list string :=
  match cache_getitem key c with
  | Some p => dependencies (candidate p)
  | None => []
  end.

(** [needs c k k']: installing [k] takes [k'] along, which is [k] itself
    or a package reached through dependencies of candidates. *)
Inductive needs (c : Cache) : string -> string -> Prop :=
| needs_self k : needs c k k
| needs_dep k d k' :
    In d (deps_of c k) -> In d (names c) -> needs c d k' -> needs c k k'.

(** A marked [key] has its dependencies marked. *)
Definition closed_at (c : Cache) (key : string) : Prop :=
  flag c key = true ->
  forall d, In d (deps_of c key) -> In d (names c) -> flag c d = true.

Definition closed (c : Cache) : Prop := forall key, closed_at c key.

(** How many packages are not marked. *)
Definition unmarked (c : Cache) : nat :=
  List.length (filter (fun p => negb (marked_install p)) c).

(* ================================================================== *)
(** ** Lines of text *)

Fixpoint all_chars (f : ascii -> bool) (s : string) : bool :=
  match s with
  | EmptyString => true
  | String c r => f c && all_chars f r
  end.

(** No whitespace anywhere in [s]. *)
Definition clean (s : string) : bool := all_chars (fun c => negb (isspace c)) s.

(** Nothing but whitespace in [s]. *)
Definition blank (s : string) : bool := all_chars isspace s.

Definition newline : string := String (ascii_of_nat 10) EmptyString.

(** What [list(stream)] gives for a file holding the given lines, each
    ended by a newline as [print] writes them. *)
Definition readlines (lines : list string) : list string :=
  map (fun l => (l ++ newline)%string) lines.

(** Installing: identity is kept and a set flag stays set, while the
    candidate may move. *)
Definition settles (p p' : Package) : Prop :=
  kept p p' /\ (marked_install p = true -> marked_install p' = true).

(* ================================================================== *)
(** ** [cmd_show] *)

Record ShowOpts : Type := mkShowOpts {
  show_packages : list string;           (* opts.packages *)
  show_format : option string            (* opts.format *)
}.

(** [if opts.format:], false for [None] and for the empty string. *)
Definition truthy (format : option string) : bool :=
  match format with
  | Some (String _ _) => true
  | _ => false
  end.

Section Show.

(** [str(pkg.candidate.record)]: the text of a version's record, kept by
    the index. *)
Variable record_text : Version -> string.

(** [opts.format % pkg.candidate.record]: Python's interpolation of the
    record into the format; it raises on a format it cannot fill. *)
Variable interpolate : string -> Version -> Result string.

(** The argument of [print] in lines 139-142. *)
Definition show_text (format : option string) (v : Version) : Result string :=
  match format with
  | Some f => if truthy format then interpolate f v else Return (record_text v)
  | None => Return (record_text v)
  end.

Definition cmd_show (opts : ShowOpts) : M Z :=
  iter_pkg_versions (show_packages opts)
    (fun pkg =>
       v <- read pkg candidate ;;
       text <- lift (show_text (show_format opts) v) ;;
       print text) ;;
  ret 0%Z.

End Show.

(** The line shown for a token that carries a version. *)
Definition shown_for (render : Version -> Result string) (c : Cache)
    (token line : string) : Prop :=
  exists n ov p, parse token = Return (n, ov) /\ cache_getitem n c = Some p /\
    forall v pinned, ov = Some v -> versions_getitem v (versions p) = Some pinned ->
                     render pinned = Return line.

(* ================================================================== *)
(** ** [init]: the options handed to apt

    Modelled from the spec: [apt_pkg.config] belongs to python-apt.  It
    is read here as a map from option names to values.  apt compares
    option names without regard to the case of their letters, so
    "Dpkg" and "DPkg" name the same option; [del config[root]] clears
    [root] and the tree of options under it, as the comment in [init]
    says. *)

Definition Config : Type := string -> option string.

(** The lower-case form of an ASCII letter; other characters stay. *)
Definition lower (c : ascii) : ascii :=
  let n := nat_of_ascii c in
  if ((65 <=? n) && (n <=? 90))%nat then ascii_of_nat (n + 32) else c.

Fixpoint fold_case (s : string) : string :=
  match s with
  | EmptyString => EmptyString
  | String c rest => String (lower c) (fold_case rest)
  end.

(** Two spellings of one option name. *)
Definition same_option (a b : string) : bool := fold_case a =? fold_case b.

(** [key] is [root] or lies in the tree below it. *)
Definition under (root key : string) : bool :=
  same_option key root || String.prefix (fold_case (root ++ "::")) (fold_case key).

(** [del apt_pkg.config[root]]. *)
Definition config_del (root : string) (cfg : Config) : Config :=
  fun key => if under root key then None else cfg key.

(** [apt_pkg.config.set(opt, val)]. *)
Definition config_set (opt val : string) (cfg : Config) : Config :=
  fun key => if same_option key opt then Some val else cfg key.

(** The dict literal of lines 29-34. *)
Definition init_items (arch cache_dir : string) : list (string * string) :=
  [ ("APT::Architecture", arch);
    ("APT::Architectures::", "");
    ("Dir", cache_dir);
    ("Dir::State::Status", "dpkg.status");
    ("Acquire::Languages", "none") ].

(** The loop of lines 29-36 over the items in the order the dict yields
    them; [apt_opts] collects ['%s=%s' % (opt, val)]. *)
Definition set_items (items : list (string * string)) (cfg : Config)
  : Config * list string :=
  fold_left
    (fun st item =>
       (config_set (fst item) (snd item) (fst st),
        snd st ++ [(fst item ++ "=" ++ snd item)%string]))
    items (cfg, []).

(** Lines 23-36 of [init]: the configuration that [init] then passes to
    [apt_pkg.init_config()] and [apt_pkg.init_system()]. *)
Definition init (arch cache_dir : string) (cfg : Config) : Config :=
  fst (set_items (init_items arch cache_dir)
         (config_del "Dpkg" (config_del "Dir" (config_del "APT" cfg)))).

(** The names of the items, letters in lower case. *)
Definition option_names (items : list (string * string)) : list string :=
  map (fun item => fold_case (fst item)) items.

(** The three trees [init] clears. *)
Definition cleared (key : string) : bool :=
  under "APT" key || under "Dir" key || under "Dpkg" key.
(* ================================================================== *)
(** ** Splitting *)

Lemma contains_count sep s : contains sep s = negb (count sep s =? 0)%nat.
Proof.
  induction s as [|c r IH]; simpl; [reflexivity|].
  destruct (Ascii.eqb c sep); simpl; [reflexivity|exact IH].
Qed.

Lemma split_length sep s : List.length (split sep s) = S (count sep s).
Proof.
  induction s as [|c r IH]; simpl; [reflexivity|].
  destruct (Ascii.eqb c sep); simpl; [now rewrite IH|].
  destruct (split sep r) as [|h t]; simpl in *; [discriminate|exact IH].
Qed.

Lemma split_none sep s : count sep s = 0 -> split sep s = [s].
Proof.
  induction s as [|c r IH]; simpl; [reflexivity|].
  destruct (Ascii.eqb c sep); simpl; [discriminate|].
  intros H. now rewrite (IH H).
Qed.

Lemma split_once sep s :
  count sep s = 1 ->
  exists a b, split sep s = [a; b] /\ s = (a ++ String sep b)%string
              /\ count sep a = 0 /\ count sep b = 0.
Proof.
  induction s as [|c r IH]; simpl; [discriminate|].
  destruct (Ascii.eqb_spec c sep) as [->|Hne]; simpl; intros H.
  - exists EmptyString, r. injection H as H.
    rewrite (split_none _ _ H). repeat split; assumption.
  - destruct (IH H) as (a & b & Hs & Hr & Ha & Hb).
    exists (String c a), b. rewrite Hs, Hr. simpl.
    destruct (Ascii.eqb_spec c sep); [contradiction|].
    repeat split; assumption.
Qed.

Lemma count_app sep a b : count sep (a ++ b)%string = count sep a + count sep b.
Proof. induction a as [|c r IH]; simpl; [reflexivity|]. rewrite IH. lia. Qed.

Lemma split_join sep a b :
  count sep a = 0 -> count sep b = 0 -> split sep (a ++ String sep b)%string = [a; b].
Proof.
  induction a as [|c r IH]; simpl; intros Ha Hb.
  - rewrite Ascii.eqb_refl. now rewrite (split_none _ _ Hb).
  - destruct (Ascii.eqb c sep); [discriminate|]. now rewrite (IH Ha Hb).
Qed.

Lemma parse_eq token :
  (1 <= count "=" token)%nat ->
  parse token =
    match unpack2 (split "=" token) with
    | Return (n, v) => Return (n, Some v)
    | Raise e => Raise e
    end.
Proof.
  intros H. unfold parse, separators, scan.
  rewrite contains_count.
  destruct (count "=" token) eqn:E; [lia|]. reflexivity.
Qed.

Lemma parse_underscore token :
  count "=" token = 0 -> (1 <= count "_" token)%nat ->
  parse token =
    match unpack2 (split "_" token) with
    | Return (n, v) => Return (n, Some v)
    | Raise e => Raise e
    end.
Proof.
  intros H0 H. unfold parse, separators, scan.
  rewrite !contains_count, H0.
  destruct (count "_" token) eqn:E; [lia|]. reflexivity.
Qed.

Lemma parse_plain token :
  count "=" token = 0 -> count "_" token = 0 -> parse token = Return (token, None).
Proof.
  intros H0 H1. unfold parse, separators, scan.
  now rewrite !contains_count, H0, H1.
Qed.

Lemma unpack2_many parts :
  (3 <= List.length parts)%nat ->
  unpack2 parts = Raise (ValueError_unpack (List.length parts)).
Proof.
  destruct parts as [|a [|b [|c r]]]; simpl; intros H; try lia; reflexivity.
Qed.

(* ================================================================== *)
(** ** Looking packages up *)

Lemma cache_getitem_name key c p : cache_getitem key c = Some p -> name p = key.
Proof.
  intros H. apply find_some in H. destruct H as [_ H].
  now apply String.eqb_eq.
Qed.

Lemma cache_getitem_In key c p : cache_getitem key c = Some p -> In p c.
Proof. intros H. now apply find_some in H. Qed.

Lemma cache_getitem_names key c :
  In key (names c) -> exists p, cache_getitem key c = Some p.
Proof.
  unfold names, cache_getitem. induction c as [|q c IH]; simpl; [contradiction|].
  intros [H|H].
  - exists q. now rewrite H, String.eqb_refl.
  - destruct (name q =? key); [now exists q|auto].
Qed.

Lemma cache_getitem_absent key c :
  cache_getitem key c = None -> ~ In key (names c).
Proof.
  intros H Hin. destruct (cache_getitem_names _ _ Hin) as [p Hp]. congruence.
Qed.

Lemma cache_getitem_wf c p :
  wf_cache c -> In p c -> cache_getitem (name p) c = Some p.
Proof.
  unfold wf_cache, names, cache_getitem.
  induction c as [|q c IH]; simpl; [contradiction|].
  intros Hnd Hin. inversion Hnd as [|? ? Hq Hnd']; subst.
  destruct Hin as [->|Hin]; [now rewrite String.eqb_refl|].
  destruct (String.eqb_spec (name q) (name p)) as [E|_]; [|auto].
  exfalso. apply Hq. rewrite E. now apply in_map.
Qed.

Lemma versions_getitem_version item vs v :
  versions_getitem item vs = Some v -> version v = item /\ In v vs.
Proof.
  intros H. apply find_some in H. destruct H as [Hin H].
  split; [now apply String.eqb_eq|assumption].
Qed.

Lemma existsb_eqb_In key d : existsb (String.eqb key) d = true <-> In key d.
Proof.
  rewrite existsb_exists. split.
  - intros (x & Hx & E). apply String.eqb_eq in E. now subst.
  - intros H. exists key. split; [exact H|apply String.eqb_refl].
Qed.

(* ================================================================== *)
(** ** Relating an index to a later state of it *)

Section Later.
Variable R : Package -> Package -> Prop.
Hypothesis R_name : forall p p', R p p' -> name p' = name p.

Lemma later_names c c' : Forall2 R c c' -> names c' = names c.
Proof.
  unfold names. induction 1 as [|p p' c c' H _ IH]; simpl; [reflexivity|].
  now rewrite IH, (R_name _ _ H).
Qed.

Lemma later_getitem key c c' :
  Forall2 R c c' ->
  match cache_getitem key c, cache_getitem key c' with
  | Some p, Some p' => R p p'
  | None, None => True
  | _, _ => False
  end.
Proof.
  unfold cache_getitem. induction 1 as [|p p' c c' H _ IH]; simpl; [exact I|].
  rewrite (R_name _ _ H). destruct (name p =? key); assumption.
Qed.

Lemma later_getitem_some key c c' p :
  Forall2 R c c' -> cache_getitem key c = Some p ->
  exists p', cache_getitem key c' = Some p' /\ R p p'.
Proof.
  intros H Hp. pose proof (later_getitem key _ _ H) as L. rewrite Hp in L.
  destruct (cache_getitem key c') as [p'|]; [now exists p'|contradiction].
Qed.

Lemma later_getitem_none key c c' :
  Forall2 R c c' -> cache_getitem key c = None -> cache_getitem key c' = None.
Proof.
  intros H Hp. pose proof (later_getitem key _ _ H) as L. rewrite Hp in L.
  destruct (cache_getitem key c'); [contradiction|reflexivity].
Qed.

Hypothesis R_refl : forall p, R p p.

Lemma later_refl c : Forall2 R c c.
Proof. induction c; constructor; auto. Qed.

Lemma later_update key f c :
  (forall p, R p (f p)) -> Forall2 R c (update key f c).
Proof.
  intros Hf. unfold update. induction c as [|p c IH]; simpl; constructor; auto.
  destruct (name p =? key); auto.
Qed.

Hypothesis R_trans : forall p q r, R p q -> R q r -> R p r.

Lemma later_trans c1 c2 c3 :
  Forall2 R c1 c2 -> Forall2 R c2 c3 -> Forall2 R c1 c3.
Proof.
  intros H. revert c3. induction H as [|p q c1 c2 Hpq _ IH]; intros c3 H3.
  - inversion H3. constructor.
  - inversion H3 as [|? r ? c3' Hqr H3']; subst. constructor; eauto.
Qed.

Lemma later_fold {A} (step : Cache -> A -> Cache) (xs : list A) c :
  (forall c' x, Forall2 R c' (step c' x)) -> Forall2 R c (fold_left step xs c).
Proof.
  intros Hs. revert c. induction xs as [|x xs IH]; intros c; simpl.
  - apply later_refl.
  - eapply later_trans; [apply Hs|apply IH].
Qed.

(** Every step of a fold that does run leaves its mark on the result. *)
Lemma later_fold_in {A} (step : Cache -> A -> Cache) (xs : list A) c x :
  (forall c' y, Forall2 R c' (step c' y)) -> In x xs ->
  exists c1, Forall2 R c c1 /\ Forall2 R (step c1 x) (fold_left step xs c).
Proof.
  intros Hs. revert c. induction xs as [|y xs IH]; intros c Hin; simpl in *.
  - contradiction.
  - destruct Hin as [->|Hin].
    + exists c. split; [apply later_refl|]. now apply later_fold.
    + destruct (IH (step c y) Hin) as (c1 & H1 & H2).
      exists c1. split; [|exact H2]. eapply later_trans; [apply Hs|exact H1].
Qed.
End Later.

Lemma kept_refl p : kept p p.
Proof. repeat split. Qed.

Lemma kept_trans p q r : kept p q -> kept q r -> kept p r.
Proof. unfold kept. intros (?&?&?) (?&?&?). repeat split; congruence. Qed.

Lemma kept_name p p' : kept p p' -> name p' = name p.
Proof. now intros (?&_). Qed.

Lemma grows_refl p : grows p p.
Proof. split; [apply kept_refl|]. split; auto. Qed.

Lemma grows_trans p q r : grows p q -> grows q r -> grows p r.
Proof.
  intros (K1&C1&M1) (K2&C2&M2). split; [eapply kept_trans; eauto|].
  split; [congruence|auto].
Qed.

Lemma grows_name p p' : grows p p' -> name p' = name p.
Proof. intros (K&_). now apply kept_name. Qed.

Lemma grows_kept p p' : grows p p' -> kept p p'.
Proof. now intros (K&_). Qed.

Lemma repins_refl p : repins p p.
Proof. split; [apply kept_refl|]. split; reflexivity. Qed.

Lemma repins_trans p q r : repins p q -> repins q r -> repins p r.
Proof.
  intros (K1&M1&A1) (K2&M2&A2). split; [eapply kept_trans; eauto|].
  split; congruence.
Qed.

Lemma repins_name p p' : repins p p' -> name p' = name p.
Proof. intros (K&_). now apply kept_name. Qed.

Lemma repins_kept p p' : repins p p' -> kept p p'.
Proof. now intros (K&_). Qed.

Lemma Forall2_weaken {A} (R S : A -> A -> Prop) l l' :
  (forall a b, R a b -> S a b) -> Forall2 R l l' -> Forall2 S l l'.
Proof. intros H. induction 1; constructor; auto. Qed.

Lemma with_mark_grows auto p : grows p (with_mark auto p).
Proof. repeat split. Qed.

Lemma with_candidate_repins v p : repins p (with_candidate v p).
Proof. repeat split. Qed.

Lemma with_candidate_kept v p : kept p (with_candidate v p).
Proof. repeat split. Qed.

Create HintDb later discriminated.
#[local] Hint Resolve kept_refl kept_trans kept_name grows_refl grows_trans
  grows_name grows_kept repins_refl repins_trans repins_name repins_kept
  with_mark_grows with_candidate_repins with_candidate_kept : later.

(** The index did not move. *)
Ltac same := apply later_refl; auto with later.

(** One package was updated in place. *)
Ltac updated := apply later_update; auto with later.

(* ================================================================== *)
(** ** The index's mark operation *)

Lemma mark_dependencies_grows fuel : forall deps c,
  Forall2 grows c (mark_dependencies fuel deps c).
Proof.
  induction fuel as [|fuel IH]; intros deps c; simpl.
  - same.
  - apply later_fold; [apply grows_refl|apply grows_trans|].
    intros c' d. destruct (cache_getitem d c') as [p|].
    + destruct (marked_install p).
      * same.
      * eapply later_trans; [apply grows_trans| |apply IH].
        updated.
    + same.
Qed.

Lemma mark_install_grows key c : Forall2 grows c (mark_install key c).
Proof.
  unfold mark_install. destruct (cache_getitem key c) as [p|].
  - eapply later_trans; [apply grows_trans| |apply mark_dependencies_grows].
    updated.
  - same.
Qed.

Lemma getitem_update key f c k :
  (forall p, name (f p) = name p) ->
  cache_getitem k (update key f c) =
    option_map (fun p => if name p =? key then f p else p) (cache_getitem k c).
Proof.
  intros Hf. unfold cache_getitem, update.
  induction c as [|p c IH]; simpl; [reflexivity|].
  assert (E : name (if name p =? key then f p else p) = name p)
    by (destruct (name p =? key); auto).
  rewrite E. destruct (name p =? k); [reflexivity|exact IH].
Qed.

Lemma mark_install_marks key c p :
  cache_getitem key c = Some p ->
  exists p', cache_getitem key (mark_install key c) = Some p' /\
             grows p p' /\ marked_install p' = true.
Proof.
  intros Hp. unfold mark_install. rewrite Hp.
  assert (H1 : cache_getitem key (update key (with_mark false) c)
               = Some (with_mark false p)).
  { rewrite getitem_update by reflexivity. rewrite Hp. simpl.
    now rewrite (cache_getitem_name _ _ _ Hp), String.eqb_refl. }
  destruct (later_getitem_some grows grows_name key _ _ _
              (mark_dependencies_grows (List.length c)
                 (dependencies (candidate p)) _) H1) as (p' & Hp' & G).
  exists p'. split; [exact Hp'|]. split.
  - eapply grows_trans; [apply (with_mark_grows false)|exact G].
  - now apply G.
Qed.

Lemma mark_dependencies_nil fuel c : mark_dependencies fuel [] c = c.
Proof. destruct fuel; reflexivity. Qed.

Lemma mark_defaults_grows c : Forall2 grows c (mark_defaults c).
Proof.
  unfold mark_defaults. apply later_fold; [apply grows_refl|apply grows_trans|].
  intros c' key. destruct (cache_getitem key c') as [p|].
  - destruct (essential p || (priority (candidate p) =? "required")).
    + apply mark_install_grows.
    + same.
  - same.
Qed.

(* ================================================================== *)
(** ** Marking closes the marked set under dependencies *)

Lemma flag_grows c c' k : Forall2 grows c c' -> flag c k = true -> flag c' k = true.
Proof.
  intros H. unfold flag. pose proof (later_getitem grows grows_name k _ _ H) as L.
  destruct (cache_getitem k c) as [p|], (cache_getitem k c') as [p'|];
    try contradiction; [|discriminate]. apply L.
Qed.

Lemma deps_of_grows c c' k : Forall2 grows c c' -> deps_of c' k = deps_of c k.
Proof.
  intros H. unfold deps_of. pose proof (later_getitem grows grows_name k _ _ H) as L.
  destruct (cache_getitem k c) as [p|], (cache_getitem k c') as [p'|];
    try contradiction; [|reflexivity]. destruct L as (_ & C & _). now rewrite C.
Qed.

Lemma names_grows c c' : Forall2 grows c c' -> names c' = names c.
Proof. apply later_names, grows_name. Qed.

Lemma needs_grows c c' k k' : Forall2 grows c c' -> needs c' k k' -> needs c k k'.
Proof.
  intros H. induction 1 as [k|k d k' Hd Hn _ IH]; [constructor|].
  rewrite (deps_of_grows _ _ k H) in Hd. rewrite (names_grows _ _ H) in Hn.
  eapply needs_dep; eauto.
Qed.

Lemma needs_later c c' k k' : Forall2 grows c c' -> needs c k k' -> needs c' k k'.
Proof.
  intros H. induction 1 as [k|k d k' Hd Hn _ IH]; [constructor|].
  rewrite <- (deps_of_grows _ _ k H) in Hd. rewrite <- (names_grows _ _ H) in Hn.
  eapply needs_dep; eauto.
Qed.

Lemma needs_trans c k1 k2 k3 : needs c k1 k2 -> needs c k2 k3 -> needs c k1 k3.
Proof.
  induction 1 as [k|k d k' Hd Hn _ IH]; [auto|].
  intros H. eapply needs_dep; eauto.
Qed.

Lemma closed_at_grows c c' k :
  Forall2 grows c c' -> flag c k = true -> closed_at c k -> closed_at c' k.
Proof.
  intros H Hk Hc _ d Hd Hn.
  rewrite (deps_of_grows _ _ k H) in Hd. rewrite (names_grows _ _ H) in Hn.
  eapply flag_grows; eauto.
Qed.

Lemma unmarked_grows c c' : Forall2 grows c c' -> unmarked c' <= unmarked c.
Proof.
  unfold unmarked. induction 1 as [|p p' c c' G _ IH]; simpl; [lia|].
  destruct G as (_ & _ & M).
  destruct (marked_install p) eqn:Ep.
  - rewrite (M eq_refl). simpl. exact IH.
  - destruct (marked_install p'); simpl; lia.
Qed.

Lemma unmarked_update c d auto :
  In d (names c) -> flag c d = false ->
  unmarked (update d (with_mark auto) c) < unmarked c.
Proof.
  unfold flag, cache_getitem, unmarked, update, names.
  induction c as [|p c IH]; simpl; [contradiction|].
  destruct (String.eqb_spec (name p) d) as [E|N].
  - intros _ Hm. rewrite Hm. simpl.
    pose proof (unmarked_grows c (update d (with_mark auto) c)
                  (later_update grows grows_refl d _ c (with_mark_grows auto))) as L.
    unfold unmarked, update in L. lia.
  - intros [H|H] Hm; [contradiction|]. specialize (IH H Hm).
    destruct (marked_install p); simpl; lia.
Qed.

Lemma flag_update c d auto k :
  flag (update d (with_mark auto) c) k
  = (flag c k || ((k =? d) && existsb (String.eqb k) (names c))).
Proof.
  unfold flag. rewrite getitem_update by reflexivity.
  destruct (cache_getitem k c) as [p|] eqn:Hp; simpl.
  - pose proof (cache_getitem_name _ _ _ Hp) as Hn. rewrite Hn.
    assert (E : existsb (String.eqb k) (names c) = true).
    { apply existsb_eqb_In. rewrite <- Hn. apply in_map.
      eapply cache_getitem_In; eauto. }
    rewrite E, andb_true_r. destruct (k =? d); simpl; [|now rewrite orb_false_r].
    now rewrite orb_true_r.
  - assert (E : existsb (String.eqb k) (names c) = false).
    { destruct (existsb (String.eqb k) (names c)) eqn:E; [|reflexivity].
      apply existsb_eqb_In in E. now apply cache_getitem_absent in Hp. }
    now rewrite E, andb_false_r.
Qed.

Lemma flag_names c k : flag c k = true -> In k (names c).
Proof.
  unfold flag. destruct (cache_getitem k c) as [p|] eqn:Hp; [|discriminate].
  intros _. rewrite <- (cache_getitem_name _ _ _ Hp). apply in_map.
  eapply cache_getitem_In; eauto.
Qed.

Lemma flag_unmarked_dep c d p :
  cache_getitem d c = Some p -> marked_install p = false ->
  In d (names c) /\ flag c d = false /\ deps_of c d = dependencies (candidate p).
Proof.
  intros Hp Hm. unfold flag, deps_of. rewrite Hp. repeat split; auto.
  rewrite <- (cache_getitem_name _ _ _ Hp). apply in_map.
  eapply cache_getitem_In; eauto.
Qed.

(** With fuel for every unmarked package, the listed dependencies end up
    marked, and every package marked on the way has its own dependencies
    marked. *)
Lemma mark_dependencies_closes fuel : forall deps c,
  unmarked c < fuel ->
  (forall d, In d deps -> In d (names c) ->
             flag (mark_dependencies fuel deps c) d = true)
  /\ (forall k, flag c k = false -> flag (mark_dependencies fuel deps c) k = true ->
                closed_at (mark_dependencies fuel deps c) k).
Proof.
  induction fuel as [|fuel IHf]; [intros deps c H; lia|].
  intros deps. simpl.
  set (step := fun c' d =>
         match cache_getitem d c' with
         | Some p =>
             if marked_install p then c'
             else mark_dependencies fuel (dependencies (candidate p))
                                    (update d (with_mark true) c')
         | None => c'
         end).
  assert (Hstep : forall c' d, Forall2 grows c' (step c' d)).
  { intros c' d. unfold step. destruct (cache_getitem d c') as [p|].
    - destruct (marked_install p); [same|].
      eapply later_trans; [apply grows_trans| |apply mark_dependencies_grows].
      updated.
    - same. }
  induction deps as [|d ds IHd]; intros c Hfuel; simpl.
  - split; [intros d []|]. intros k H0 H1. congruence.
  - pose proof (Hstep c d) as G1.
    pose proof (later_fold grows grows_refl grows_trans step ds (step c d) Hstep) as G2.
    assert (Hfuel1 : unmarked (step c d) < S fuel)
      by (pose proof (unmarked_grows _ _ G1); lia).
    destruct (IHd (step c d) Hfuel1) as [A1 B1].
    assert (Hd : In d (names c) -> flag (step c d) d = true
                 /\ forall k, flag c k = false -> flag (step c d) k = true ->
                              closed_at (step c d) k).
    { intros Hin. destruct (cache_getitem_names d c Hin) as [p Hp].
      unfold step. rewrite Hp. destruct (marked_install p) eqn:Hm.
      - split; [unfold flag; now rewrite Hp|]. intros k H0 H1. congruence.
      - destruct (flag_unmarked_dep c d p Hp Hm) as (_ & Fd & Dd).
        set (c0 := update d (with_mark true) c).
        assert (G0 : Forall2 grows c c0)
          by (updated).
        assert (Hfuel0 : unmarked c0 < fuel)
          by (pose proof (unmarked_update c d true Hin Fd); fold c0 in H; lia).
        destruct (IHf (dependencies (candidate p)) c0 Hfuel0) as [A0 B0].
        pose proof (mark_dependencies_grows fuel (dependencies (candidate p)) c0) as G.
        assert (F0 : flag c0 d = true).
        { unfold c0. rewrite flag_update, String.eqb_refl.
          assert (E : existsb (String.eqb d) (names c) = true)
            by now apply existsb_eqb_In.
          rewrite E. apply orb_true_r. }
        split; [eapply flag_grows; eauto|].
        intros k H0 H1. destruct (flag c0 k) eqn:Fk; [|now apply B0].
        assert (k = d).
        { unfold c0 in Fk. rewrite flag_update, H0 in Fk. simpl in Fk.
          apply andb_prop in Fk. destruct Fk as [Fk _]. now apply String.eqb_eq. }
        subst k. intros _ e He Hn.
        rewrite (deps_of_grows _ _ d G), (deps_of_grows _ _ d G0), Dd in He.
        rewrite (names_grows _ _ G) in Hn. now apply A0. }
    split.
    + intros e [<-|He] Hin.
      * eapply flag_grows; [exact G2|]. now apply Hd.
      * apply A1; [exact He|]. now rewrite (names_grows _ _ G1).
    + intros k H0 H1. destruct (flag (step c d) k) eqn:Fk; [|now apply B1].
      apply (closed_at_grows _ _ k G2 Fk).
      destruct (in_dec string_dec d (names c)) as [Hin|Hout].
      * now apply Hd.
      * exfalso. unfold step in Fk.
        destruct (cache_getitem d c) as [p|] eqn:Hp; [|congruence].
        apply Hout. rewrite <- (cache_getitem_name _ _ _ Hp). apply in_map.
        eapply cache_getitem_In; eauto.
Qed.

(** Whatever gets marked is needed by one of the listed dependencies. *)
Lemma mark_dependencies_needed fuel : forall deps c k,
  flag c k = false -> flag (mark_dependencies fuel deps c) k = true ->
  exists d, In d deps /\ In d (names c) /\ needs c d k.
Proof.
  induction fuel as [|fuel IHf]; [intros deps c k H0 H1; simpl in H1; congruence|].
  intros deps. simpl.
  set (step := fun c' d =>
         match cache_getitem d c' with
         | Some p =>
             if marked_install p then c'
             else mark_dependencies fuel (dependencies (candidate p))
                                    (update d (with_mark true) c')
         | None => c'
         end).
  assert (Hstep : forall c' d, Forall2 grows c' (step c' d)).
  { intros c' d. unfold step. destruct (cache_getitem d c') as [p|].
    - destruct (marked_install p); [same|].
      eapply later_trans; [apply grows_trans| |apply mark_dependencies_grows].
      updated.
    - same. }
  induction deps as [|d ds IHd]; intros c k H0 H1; simpl in H1; [congruence|].
  destruct (flag (step c d) k) eqn:Fk.
  - exists d. unfold step in Fk.
    destruct (cache_getitem d c) as [p|] eqn:Hp; [|congruence].
    destruct (marked_install p) eqn:Hm; [congruence|].
    destruct (flag_unmarked_dep c d p Hp Hm) as (Hin & Fd & Dd).
    split; [now left|]. split; [exact Hin|].
    set (c0 := update d (with_mark true) c) in *.
    assert (G0 : Forall2 grows c c0)
      by (updated).
    destruct (flag c0 k) eqn:F0.
    + unfold c0 in F0. rewrite flag_update, H0 in F0. simpl in F0.
      apply andb_prop in F0. destruct F0 as [F0 _]. apply String.eqb_eq in F0.
      subst k. constructor.
    + destruct (IHf _ c0 k F0 Fk) as (e & He & Hn & Ne).
      rewrite (names_grows _ _ G0) in Hn.
      apply needs_dep with (d := e); [now rewrite Dd|exact Hn|].
      eapply needs_grows; eauto.
  - destruct (IHd (step c d) k Fk H1) as (e & He & Hn & Ne).
    exists e. split; [now right|].
    split; [now rewrite <- (names_grows _ _ (Hstep c d))|].
    eapply needs_grows; eauto.
Qed.

Lemma mark_install_closed key c :
  (forall k, k <> key -> closed_at c k) -> closed (mark_install key c).
Proof.
  intros Hc. unfold mark_install.
  destruct (cache_getitem key c) as [p|] eqn:Hp.
  - set (c0 := update key (with_mark false) c).
    assert (Hin : In key (names c)).
    { rewrite <- (cache_getitem_name _ _ _ Hp). apply in_map.
      eapply cache_getitem_In; eauto. }
    assert (G0 : Forall2 grows c c0)
      by (updated).
    pose proof (mark_dependencies_grows (List.length c)
                  (dependencies (candidate p)) c0) as G.
    assert (F0 : flag c0 key = true).
    { unfold c0. rewrite flag_update, String.eqb_refl.
      assert (E : existsb (String.eqb key) (names c) = true)
        by now apply existsb_eqb_In.
      rewrite E. apply orb_true_r. }
    assert (Hfuel : unmarked c0 < List.length c).
    { destruct (flag c key) eqn:Fk.
      - pose proof (unmarked_grows _ _ G0) as L.
        assert (unmarked c < List.length c); [|lia].
        clear - Hp Fk. unfold flag in Fk. rewrite Hp in Fk.
        apply cache_getitem_In in Hp. unfold unmarked.
        induction c as [|q c IH]; simpl in *; [contradiction|].
        destruct Hp as [->|Hq].
        + rewrite Fk. simpl. pose proof (filter_length_le
            (fun p0 => negb (marked_install p0)) c). lia.
        + specialize (IH Hq). destruct (marked_install q); simpl; lia.
      - pose proof (unmarked_update c key false Hin Fk) as L. fold c0 in L.
        assert (unmarked c <= List.length c); [|lia].
        unfold unmarked. apply filter_length_le. }
    destruct (mark_dependencies_closes _ (dependencies (candidate p)) c0 Hfuel)
      as [A B].
    assert (G' : Forall2 grows c
                   (mark_dependencies (List.length c) (dependencies (candidate p)) c0))
      by (eapply later_trans; [apply grows_trans|exact G0|exact G]).
    intros k. destruct (flag c0 k) eqn:Fk; [|intros Hk; now apply B].
    intros _ d Hd Hn.
    rewrite (deps_of_grows _ _ k G') in Hd. rewrite (names_grows _ _ G) in Hn.
    destruct (String.eqb_spec k key) as [->|Hne].
    + apply A; [|exact Hn]. unfold deps_of in Hd. now rewrite Hp in Hd.
    + assert (Fc : flag c k = true).
      { unfold c0 in Fk. rewrite flag_update in Fk.
        destruct (String.eqb_spec k key) as [E|_]; [contradiction|].
        now rewrite orb_false_r in Fk. }
      eapply flag_grows; [exact G'|].
      apply (Hc k Hne Fc d Hd). now rewrite <- (names_grows _ _ G0).
  - intros k. destruct (String.eqb_spec k key) as [->|Hne]; [|now apply Hc].
    intros Hk. apply flag_names in Hk. apply cache_getitem_names in Hk.
    destruct Hk as [q Hq]. congruence.
Qed.

Lemma mark_install_needed key c k :
  flag c k = false -> flag (mark_install key c) k = true -> needs c key k.
Proof.
  unfold mark_install. destruct (cache_getitem key c) as [p|] eqn:Hp; [|congruence].
  set (c0 := update key (with_mark false) c).
  assert (G0 : Forall2 grows c c0)
    by (updated).
  intros H0 H1. destruct (flag c0 k) eqn:F0.
  - unfold c0 in F0. rewrite flag_update, H0 in F0. simpl in F0.
    apply andb_prop in F0. destruct F0 as [F0 _]. apply String.eqb_eq in F0.
    subst k. constructor.
  - destruct (mark_dependencies_needed _ _ c0 k F0 H1) as (e & He & Hn & Ne).
    rewrite (names_grows _ _ G0) in Hn.
    apply needs_dep with (d := e).
    + unfold deps_of. now rewrite Hp.
    + exact Hn.
    + eapply needs_grows; eauto.
Qed.

(** In a closed index, what a marked package needs is marked. *)
Lemma closed_needs c k k' :
  closed c -> needs c k k' -> flag c k = true -> flag c k' = true.
Proof.
  intros Hc. induction 1 as [k|k d k' Hd Hn _ IH]; [auto|].
  intros Hk. apply IH. now apply (Hc k).
Qed.

(* ================================================================== *)
(** ** The specifier parser *)

Lemma parse_once_eq token :
  count "=" token = 1 ->
  exists n v, parse token = Return (n, Some v)
              /\ token = (n ++ "=" ++ v)%string /\ count "=" n = 0.
Proof.
  intros H. destruct (split_once _ _ H) as (a & b & Hs & Ht & Ha & _).
  exists a, b. rewrite parse_eq by lia. rewrite Hs. simpl. auto.
Qed.

Lemma parse_once_underscore token :
  count "=" token = 0 -> count "_" token = 1 ->
  exists n v, parse token = Return (n, Some v)
              /\ token = (n ++ "_" ++ v)%string /\ count "_" n = 0.
Proof.
  intros H0 H. destruct (split_once _ _ H) as (a & b & Hs & Ht & Ha & _).
  exists a, b. rewrite parse_underscore by lia. rewrite Hs. simpl. auto.
Qed.

(** C3 (amended).  The parser looks for '=' first and for '_' only when
    there is no '='.  When the separator it finds occurs exactly once,
    the token is cut there into name and version; a token with neither
    separator is a name without version. *)
Theorem parse_cuts_at_first_separator (token : string) :
  (count "=" token = 1 ->
     exists n v, parse token = Return (n, Some v)
                 /\ token = (n ++ "=" ++ v)%string /\ count "=" n = 0)
  /\ (count "=" token = 0 -> count "_" token = 1 ->
     exists n v, parse token = Return (n, Some v)
                 /\ token = (n ++ "_" ++ v)%string /\ count "_" n = 0)
  /\ (contains "=" token = false -> contains "_" token = false ->
     parse token = Return (token, None)).
Proof.
  split; [|split].
  - apply parse_once_eq.
  - apply parse_once_underscore.
  - rewrite !contains_count. intros H0 H1. apply parse_plain.
    + destruct (count "=" token); [reflexivity|discriminate].
    + destruct (count "_" token); [reflexivity|discriminate].
Qed.

Lemma parse_cuts_at_first_separator_witness :
  (exists n v, parse "foo_1=2_3" = Return (n, Some v)
               /\ "foo_1=2_3" = (n ++ "=" ++ v)%string /\ count "=" n = 0)
  /\ (exists n v, parse "foo_1.2" = Return (n, Some v)
               /\ "foo_1.2" = (n ++ "_" ++ v)%string /\ count "_" n = 0)
  /\ parse "foo" = Return ("foo", None).
Proof.
  split; [|split].
  - apply (proj1 (parse_cuts_at_first_separator "foo_1=2_3")). reflexivity.
  - apply (proj1 (proj2 (parse_cuts_at_first_separator "foo_1.2"))); reflexivity.
  - apply (proj2 (proj2 (parse_cuts_at_first_separator "foo"))); reflexivity.
Defined.

(** C3, as stated, fails: the token "a=b=c" contains '=', yet the parser
    returns no name and version for it. *)
Lemma parse_repeated_separator_no_specifier :
  contains "=" "a=b=c" = true
  /\ parse "a=b=c" = Raise (ValueError_unpack 3)
  /\ forall spec, parse "a=b=c" <> Return spec.
Proof. repeat split. intros spec H. discriminate H. Qed.

Lemma parse_repeated token :
  (2 <= count "=" token \/ (count "=" token = 0 /\ 2 <= count "_" token)) ->
  exists got, (3 <= got)%nat /\ parse token = Raise (ValueError_unpack got).
Proof.
  intros [H|[H0 H]].
  - exists (S (count "=" token)). split; [lia|].
    rewrite parse_eq by lia. rewrite unpack2_many; rewrite split_length; [reflexivity|lia].
  - exists (S (count "_" token)). split; [lia|].
    rewrite parse_underscore by lia.
    rewrite unpack2_many; rewrite split_length; [reflexivity|lia].
Qed.

(** C10.  A token in which the separator the parser finds occurs more
    than once ("a=b=c", or "a_1_2" without '=') yields no name and
    version: unpacking the split raises, in the generator shared by
    install, fetch and show, before the index is touched.  A token with
    each separator at most once always parses. *)
Theorem repeated_separator_raises :
  parse "a=b=c" = Raise (ValueError_unpack 3)
  /\ parse "a_1_2" = Raise (ValueError_unpack 3)
  /\ (forall token,
        (2 <= count "=" token \/ (count "=" token = 0 /\ 2 <= count "_" token)) ->
        exists got,
          parse token = Raise (ValueError_unpack got)
          /\ forall rest body w,
               iter_pkg_versions (token :: rest) body w
               = (w, Raise (ValueError_unpack got)))
  /\ (forall token, count "=" token <= 1 -> count "_" token <= 1 ->
        exists spec, parse token = Return spec).
Proof.
  split; [reflexivity|]. split; [reflexivity|]. split.
  - intros token H. destruct (parse_repeated token H) as (got & _ & Hp).
    exists got. split; [exact Hp|]. intros rest body w.
    unfold iter_pkg_versions. simpl. unfold bind, next_pkg, bind, lift.
    now rewrite Hp.
  - intros token He Hu.
    destruct (count "=" token) as [|[|n]] eqn:E; [|clear He|lia].
    + destruct (count "_" token) as [|[|n]] eqn:U; [|clear Hu|lia].
      * exists (token, None). now apply parse_plain.
      * destruct (parse_once_underscore token E U) as (n & v & Hp & _).
        now exists (n, Some v).
    + destruct (parse_once_eq token E) as (n & v & Hp & _).
      now exists (n, Some v).
Qed.

Lemma repeated_separator_raises_witness :
  (exists got, parse "pkg=1=2" = Raise (ValueError_unpack got))
  /\ (exists spec, parse "pkg=1_2" = Return spec).
Proof.
  destruct repeated_separator_raises as (_ & _ & H1 & H2). split.
  - destruct (H1 "pkg=1=2") as (got & Hp & _).
    + left. simpl. lia.
    + now exists got.
  - apply H2; simpl; lia.
Defined.

(* ================================================================== *)
(** ** The default pass *)

Lemma grows_is_default p p' : grows p p' -> is_default p' = is_default p.
Proof. intros ((_&_&E)&C&_). unfold is_default. now rewrite E, C. Qed.

Lemma mark_defaults_marks key c p :
  cache_getitem key c = Some p -> is_default p = true ->
  exists p', cache_getitem key (mark_defaults c) = Some p' /\
             grows p p' /\ marked_install p' = true.
Proof.
  intros Hp Hd.
  assert (Hin : In key (names c)).
  { rewrite <- (cache_getitem_name _ _ _ Hp). apply in_map.
    eapply cache_getitem_In; eauto. }
  set (step := fun c' k =>
         match cache_getitem k c' with
         | Some pkg =>
             if essential pkg || (priority (candidate pkg) =? "required")
             then mark_install k c' else c'
         | None => c'
         end).
  assert (Hstep : forall c' k, Forall2 grows c' (step c' k)).
  { intros c' k. unfold step. destruct (cache_getitem k c') as [q|].
    - destruct (essential q || _); [apply mark_install_grows|].
      same.
    - same. }
  destruct (later_fold_in grows grows_refl grows_trans step (names c) c key
              Hstep Hin) as (c1 & H1 & H2).
  destruct (later_getitem_some grows grows_name key _ _ _ H1 Hp) as (p1 & Hp1 & G1).
  assert (E : step c1 key = mark_install key c1).
  { unfold step. rewrite Hp1.
    change (essential p1 || (priority (candidate p1) =? "required"))
      with (is_default p1).
    now rewrite (grows_is_default _ _ G1), Hd. }
  rewrite E in H2.
  destruct (mark_install_marks key c1 p1 Hp1) as (p2 & Hp2 & G2 & M2).
  destruct (later_getitem_some grows grows_name key _ _ _ H2 Hp2) as (p3 & Hp3 & G3).
  exists p3. split; [exact Hp3|]. split.
  - eapply grows_trans; [exact G1|]. eapply grows_trans; eauto.
  - now apply G3.
Qed.

Lemma wf_later (R : Package -> Package -> Prop) c c' :
  (forall p p', R p p' -> name p' = name p) ->
  Forall2 R c c' -> wf_cache c -> wf_cache c'.
Proof. intros HR H. unfold wf_cache. now rewrite (later_names R HR _ _ H). Qed.

Lemma mark_defaults_no_dependencies_gen (ks : list string) : forall c,
  wf_cache c ->
  (forall p, In p c -> is_default p = true -> dependencies (candidate p) = []) ->
  fold_left
    (fun c' key =>
       match cache_getitem key c' with
       | Some pkg =>
           if essential pkg || (priority (candidate pkg) =? "required")
           then mark_install key c' else c'
       | None => c'
       end) ks c
  = map (fun p => if is_default p && existsb (String.eqb (name p)) ks
                  then with_mark false p else p) c.
Proof.
  induction ks as [|k ks IH]; intros c Hwf Hnd; simpl.
  - rewrite <- (map_id c) at 1. apply map_ext. intros p.
    now rewrite andb_false_r.
  - assert (Hstep :
      match cache_getitem k c with
      | Some pkg =>
          if essential pkg || (priority (candidate pkg) =? "required")
          then mark_install k c else c
      | None => c
      end
      = map (fun p => if is_default p && (name p =? k) then with_mark false p else p) c).
    { destruct (cache_getitem k c) as [q|] eqn:Hq.
      - change (essential q || (priority (candidate q) =? "required"))
          with (is_default q).
        pose proof (cache_getitem_In _ _ _ Hq) as Hin.
        pose proof (cache_getitem_name _ _ _ Hq) as Hname.
        destruct (is_default q) eqn:Dq.
        + unfold mark_install. rewrite Hq, (Hnd q Hin Dq), mark_dependencies_nil.
          unfold update. apply map_ext_in. intros p Hp.
          destruct (String.eqb_spec (name p) k) as [E|_].
          * assert (p = q).
            { pose proof (cache_getitem_wf c p Hwf Hp) as H1.
              rewrite E, Hq in H1. congruence. }
            subst p. now rewrite Dq.
          * now rewrite andb_false_r.
        + rewrite <- (map_id c) at 1. apply map_ext_in. intros p Hp.
          destruct (String.eqb_spec (name p) k) as [E|_].
          * assert (p = q).
            { pose proof (cache_getitem_wf c p Hwf Hp) as H1.
              rewrite E, Hq in H1. congruence. }
            subst p. now rewrite Dq.
          * now rewrite andb_false_r.
      - rewrite <- (map_id c) at 1. apply map_ext_in. intros p Hp.
        destruct (String.eqb_spec (name p) k) as [E|_].
        + exfalso. apply (cache_getitem_absent _ _ Hq). rewrite <- E.
          now apply in_map.
        + now rewrite andb_false_r. }
    rewrite Hstep. rewrite IH.
    + rewrite map_map. apply map_ext. intros p.
      rewrite (String.eqb_sym (name p) k).
      assert (Dm : is_default (with_mark false p) = is_default p) by reflexivity.
      destruct (is_default p) eqn:Dp; destruct (k =? name p);
        cbn [andb orb]; rewrite ?Dm, ?Dp; cbn [andb orb name with_mark];
        try reflexivity.
      now destruct (existsb (String.eqb (name p)) ks).
    + unfold wf_cache, names in *. rewrite map_map.
      erewrite map_ext; [exact Hwf|]. intros p. simpl.
      now destruct (is_default p && (name p =? k)).
    + intros p' Hp' Dp'. apply in_map_iff in Hp'. destruct Hp' as (p & E & Hp).
      destruct (is_default p && (name p =? k)); subst p'; [|auto].
      apply (Hnd p Hp). exact Dp'.
Qed.

Lemma mark_defaults_no_dependencies c :
  wf_cache c ->
  (forall p, In p c -> is_default p = true -> dependencies (candidate p) = []) ->
  mark_defaults c = map (fun p => if is_default p then with_mark false p else p) c.
Proof.
  intros Hwf Hnd. unfold mark_defaults.
  rewrite mark_defaults_no_dependencies_gen by assumption.
  apply map_ext_in. intros p Hp.
  assert (E : existsb (String.eqb (name p)) (names c) = true).
  { apply existsb_eqb_In. now apply in_map. }
  now rewrite E, andb_true_r.
Qed.

Lemma mark_defaults_closed c : closed c -> closed (mark_defaults c).
Proof.
  unfold mark_defaults. generalize (names c). intros ks. revert c.
  induction ks as [|k ks IH]; intros c Hc; simpl; [exact Hc|].
  apply IH. destruct (cache_getitem k c) as [p|]; [|exact Hc].
  destruct (essential p || _); [|exact Hc].
  apply mark_install_closed. intros k' _. apply Hc.
Qed.

Lemma mark_defaults_needed c k :
  flag c k = false -> flag (mark_defaults c) k = true ->
  exists key p, cache_getitem key c = Some p /\ is_default p = true /\ needs c key k.
Proof.
  unfold mark_defaults. generalize (names c). intros ks.
  assert (H : forall c', Forall2 grows c c' -> flag c' k = false ->
    flag (fold_left
            (fun c'' key =>
               match cache_getitem key c'' with
               | Some pkg =>
                   if essential pkg || (priority (candidate pkg) =? "required")
                   then mark_install key c'' else c''
               | None => c''
               end) ks c') k = true ->
    exists key p, cache_getitem key c = Some p /\ is_default p = true /\ needs c key k).
  { induction ks as [|k0 ks IH]; intros c' G H0 H1; simpl in H1; [congruence|].
    destruct (cache_getitem k0 c') as [p'|] eqn:Hp'; [|eauto].
    change (essential p' || (priority (candidate p') =? "required"))
      with (is_default p') in H1.
    destruct (is_default p') eqn:Dp'; [|eauto].
    destruct (flag (mark_install k0 c') k) eqn:F1.
    - pose proof (later_getitem grows grows_name k0 _ _ G) as L. rewrite Hp' in L.
      destruct (cache_getitem k0 c) as [p|] eqn:Hp; [|contradiction].
      exists k0, p. split; [exact Hp|].
      split; [now rewrite <- (grows_is_default _ _ L)|].
      eapply needs_grows; [exact G|]. now apply mark_install_needed.
    - apply (IH (mark_install k0 c')); auto.
      eapply later_trans; [apply grows_trans|exact G|apply mark_install_grows]. }
  intros H0. apply H; [same|exact H0].
Qed.

Lemma mark_defaults_exact c k :
  closed c ->
  flag (mark_defaults c) k = true <->
  flag c k = true \/
  exists key p, cache_getitem key c = Some p /\ is_default p = true /\ needs c key k.
Proof.
  intros Hc. split.
  - intros H1. destruct (flag c k) eqn:H0; [now left|right].
    now apply mark_defaults_needed.
  - intros [H0|(key & p & Hp & Hd & Hn)].
    + eapply flag_grows; [apply mark_defaults_grows|exact H0].
    + apply (closed_needs (mark_defaults c) key k).
      * now apply mark_defaults_closed.
      * eapply needs_later; [apply mark_defaults_grows|exact Hn].
      * destruct (mark_defaults_marks key c p Hp Hd) as (p' & Hp' & _ & M).
        unfold flag. now rewrite Hp'.
Qed.

(** C5 (amended).  The default pass visits every package of the index
    and calls the index's mark operation on those that are essential or
    of priority required; it runs before the requests and whatever they
    are.  Nothing but marks changes.  On an index whose marked packages
    have their dependencies marked (a fresh index marks nothing), the
    packages marked afterwards are exactly those marked before, the
    essential and required ones, and what these need through
    dependencies; when the essential and required packages have no
    dependencies, exactly they are marked and the others are left as
    they were. *)
Theorem default_pass_marks_essential_and_required (c : Cache) :
  (forall key p, cache_getitem key c = Some p -> is_default p = true ->
     exists p', cache_getitem key (mark_defaults c) = Some p'
                /\ marked_install p' = true)
  /\ Forall2 grows c (mark_defaults c)
  /\ (closed c ->
      forall k, flag (mark_defaults c) k = true <->
                flag c k = true \/
                exists key p, cache_getitem key c = Some p
                              /\ is_default p = true /\ needs c key k)
  /\ (wf_cache c ->
      (forall p, In p c -> is_default p = true -> dependencies (candidate p) = []) ->
      mark_defaults c
      = map (fun p => if is_default p then with_mark false p else p) c)
  /\ (forall pkgs w,
        plan pkgs w
        = iter_pkg_versions pkgs (fun pkg => modify_index (mark_install pkg))
            (mkWorld (mark_defaults (index w)) (output w) (archives w))).
Proof.
  split; [|split; [|split; [|split]]].
  - intros key p Hp Hd.
    destruct (mark_defaults_marks key c p Hp Hd) as (p' & H & _ & M). eauto.
  - apply mark_defaults_grows.
  - intros Hc k. now apply mark_defaults_exact.
  - apply mark_defaults_no_dependencies.
  - intros pkgs w. reflexivity.
Qed.

Lemma wf_abc : wf_cache abc.
Proof.
  unfold wf_cache. simpl. repeat constructor; simpl; intuition discriminate.
Qed.

Lemma closed_fresh c : Forall (fun p => marked_install p = false) c -> closed c.
Proof.
  intros H k Hk. exfalso. unfold flag in Hk.
  destruct (cache_getitem k c) as [p|] eqn:Hp; [|discriminate].
  apply cache_getitem_In in Hp. rewrite Forall_forall in H.
  rewrite (H p Hp) in Hk. discriminate.
Qed.

Lemma default_pass_marks_essential_and_required_witness :
  (exists p', cache_getitem "B" (mark_defaults abc) = Some p'
              /\ marked_install p' = true)
  /\ (flag (mark_defaults with_dep) "libz" = true <->
      flag with_dep "libz" = true \/
      exists key p, cache_getitem key with_dep = Some p
                    /\ is_default p = true /\ needs with_dep key "libz")
  /\ mark_defaults abc
     = map (fun p => if is_default p then with_mark false p else p) abc.
Proof.
  destruct (default_pass_marks_essential_and_required abc) as (H1 & _ & _ & H4 & _).
  destruct (default_pass_marks_essential_and_required with_dep) as (_ & _ & H3 & _).
  split; [|split].
  - apply (H1 "B" (pkg0 "B" [ver "1" "required" []] (ver "1" "required" []) false));
      reflexivity.
  - apply H3. apply closed_fresh. repeat constructor.
  - apply H4; [exact wf_abc|].
    intros p Hp _. simpl in Hp.
    destruct Hp as [<-|[<-|[<-|[]]]]; reflexivity.
Defined.

(** The default closure of the specification: A is essential, B is
    required, C is optional; with no request A and B are marked. *)
Example default_closure_abc :
  cmd_install (mkInstallOpts [] []) (world0 abc)
  = (mkWorld (map (fun p => if is_default p then with_mark false p else p) abc)
             ["A=1.0"; "B=1"] [], Return 0%Z)
  /\ map (flag (mark_defaults abc)) ["A"; "B"; "C"] = [true; true; false].
Proof. split; reflexivity. Qed.

(** C5, as stated, fails: on an index where the essential "base" depends
    on the optional "libz", the default pass also marks "libz". *)
Lemma default_pass_marks_a_dependency :
  Forall (fun p => marked_install p = false) with_dep
  /\ ~ (forall p, In p (mark_defaults with_dep) ->
          marked_install p = true ->
          essential p = true \/ priority (candidate p) = "required").
Proof.
  split; [repeat constructor|].
  intros H.
  specialize (H (mkPackage "libz" [ver "1" "optional" []] (ver "1" "optional" [])
                   false true true)).
  destruct H as [H|H]; [right; left; reflexivity|reflexivity| |]; discriminate H.
Qed.

(* ================================================================== *)
(** ** The snapshot *)



Lemma set_filter_gen (apply : Package -> bool) (c : Cache) : forall l d,
  (forall p, In p l -> cache_getitem (name p) c = Some p) ->
  NoDup (map name l) ->
  (forall p, In p l -> ~ In (name p) d) ->
  fold_left
    (fun d' key =>
       match cache_getitem key c with
       | Some pkg => if apply pkg then dict_set (name pkg) d' else d'
       | None => d'
       end)
    (map name l) d
  = d ++ map name (filter apply l).
Proof.
  induction l as [|p l IH]; intros d Hget Hnd Hfresh; simpl.
  - now rewrite app_nil_r.
  - rewrite (Hget p (or_introl eq_refl)).
    inversion Hnd as [|? ? Hp Hnd']; subst.
    destruct (apply p).
    + unfold dict_set.
      destruct (existsb (String.eqb (name p)) d) eqn:E.
      { apply existsb_eqb_In in E. exfalso.
        exact (Hfresh p (or_introl eq_refl) E). }
      rewrite IH; simpl.
      * now rewrite <- app_assoc.
      * intros q Hq. apply Hget. now right.
      * exact Hnd'.
      * intros q Hq Hin. apply in_app_or in Hin. destruct Hin as [Hin|[E'|[]]].
        -- exact (Hfresh q (or_intror Hq) Hin).
        -- apply Hp. rewrite E'. now apply in_map.
    + apply IH.
      * intros q Hq. apply Hget. now right.
      * exact Hnd'.
      * intros q Hq. apply Hfresh. now right.
Qed.

Lemma set_filter_wf (apply : Package -> bool) (c : Cache) :
  wf_cache c -> set_filter apply c = map name (filter apply c).
Proof.
  intros Hwf. unfold set_filter, names.
  rewrite (set_filter_gen apply c c []); auto.
  intros p Hp. now apply cache_getitem_wf.
Qed.

Lemma snapshot_wf c :
  wf_cache c ->
  snapshot c = map (fun p => (name p, version (candidate p))) (filter marked_install c).
Proof.
  intros Hwf. unfold snapshot. rewrite set_filter_wf by assumption.
  unfold InstallFilter_apply.
  assert (H : forall l, (forall p, In p l -> In p c) ->
    flat_map (fun key => match cache_getitem key c with
                         | Some pkg => [(name pkg, version (candidate pkg))]
                         | None => []
                         end) (map name l)
    = map (fun p => (name p, version (candidate p))) l).
  { induction l as [|p l IH]; intros Hl; simpl; [reflexivity|].
    rewrite (cache_getitem_wf c p Hwf (Hl p (or_introl eq_refl))). simpl.
    f_equal. apply IH. intros q Hq. apply Hl. now right. }
  apply H. intros p Hp. now apply filter_In in Hp.
Qed.

Lemma snapshot_In c n v :
  wf_cache c ->
  In (n, v) (snapshot c) <->
  exists p, In p c /\ marked_install p = true
            /\ name p = n /\ version (candidate p) = v.
Proof.
  intros Hwf. rewrite snapshot_wf by assumption. rewrite in_map_iff. split.
  - intros (p & E & Hp). apply filter_In in Hp. destruct Hp as [Hp Hm].
    injection E as <- <-. eauto.
  - intros (p & Hp & Hm & <- & <-). exists p. split; [reflexivity|].
    now apply filter_In.
Qed.



Lemma set_filter_keys (apply : Package -> bool) (c : Cache) key :
  In key (set_filter apply c) -> In key (names c).
Proof.
  unfold set_filter.
  assert (H : forall ks d,
    (forall k, In k d -> In k (names c)) ->
    forall k, In k (fold_left
      (fun d' key0 => match cache_getitem key0 c with
                      | Some pkg => if apply pkg then dict_set (name pkg) d' else d'
                      | None => d'
                      end) ks d) -> In k (names c)).
  { induction ks as [|k0 ks IH]; intros d Hd k; simpl; [apply Hd|].
    apply IH. intros k1. destruct (cache_getitem k0 c) as [p|] eqn:Hp; [|apply Hd].
    destruct (apply p); [|apply Hd]. unfold dict_set.
    destruct (existsb _ d); [apply Hd|]. intros Hin.
    apply in_app_or in Hin. destruct Hin as [Hin|[<-|[]]]; [now apply Hd|].
    apply in_map. eapply cache_getitem_In; eauto. }
  apply H. intros k [].
Qed.

Lemma print_loop keys : forall w,
  (forall k, In k keys -> In k (names (index w))) ->
  for_each keys
    (fun key =>
       n <- read key name ;;
       v <- read key (fun p => version (candidate p)) ;;
       print (entry_line (n, v))) w
  = (mkWorld (index w)
       (output w ++
        map entry_line
          (flat_map (fun key => match cache_getitem key (index w) with
                                | Some pkg => [(name pkg, version (candidate pkg))]
                                | None => []
                                end) keys))
       (archives w),
     Return tt).
Proof.
  induction keys as [|k keys IH]; intros w Hk; simpl.
  - destruct w; simpl. now rewrite app_nil_r.
  - destruct (cache_getitem_names k (index w) (Hk k (or_introl eq_refl))) as [p Hp].
    assert (Hb : (n <- read k name ;;
                  v <- read k (fun p => version (candidate p)) ;;
                  print (entry_line (n, v))) w
                 = (mkWorld (index w)
                      (output w ++ [entry_line (name p, version (candidate p))])
                      (archives w), Return tt)).
    { unfold bind, read, print. rewrite Hp. cbv beta iota. rewrite Hp. reflexivity. }
    unfold bind at 1. rewrite Hb, IH; cbn [index output archives].
    + rewrite Hp. simpl. now rewrite <- app_assoc.
    + intros k' Hk'. apply Hk. now right.
Qed.

Lemma print_snapshot_spec w :
  print_snapshot w
  = (mkWorld (index w) (output w ++ map entry_line (snapshot (index w))) (archives w),
     Return tt).
Proof.
  unfold print_snapshot, snapshot. apply print_loop.
  intros k. apply set_filter_keys.
Qed.



Lemma getitem_map g key c :
  (forall p, name (g p) = name p) ->
  cache_getitem key (map g c) = option_map g (cache_getitem key c).
Proof.
  intros Hg. unfold cache_getitem. induction c as [|p c IH]; simpl; [reflexivity|].
  rewrite Hg. destruct (name p =? key); [reflexivity|exact IH].
Qed.

Lemma snapshot_map g c :
  (forall p, name (g p) = name p) ->
  (forall p, marked_install (g p) = marked_install p) ->
  (forall p, candidate (g p) = candidate p) ->
  snapshot (map g c) = snapshot c.
Proof.
  intros Hn Hm Hc. unfold snapshot.
  assert (E : set_filter InstallFilter_apply (map g c)
              = set_filter InstallFilter_apply c).
  { unfold set_filter, names. rewrite map_map.
    rewrite (map_ext _ name Hn).
    generalize (@nil string). generalize (map name c) at 1 2.
    induction l as [|k ks IH]; intros d; simpl; [reflexivity|].
    rewrite getitem_map by exact Hn.
    destruct (cache_getitem k c) as [p|]; simpl; [|apply IH].
    unfold InstallFilter_apply. rewrite Hm, Hn. apply IH. }
  rewrite E. apply flat_map_ext. intros k.
  rewrite getitem_map by exact Hn.
  destruct (cache_getitem k c) as [p|]; simpl; [|reflexivity].
  now rewrite Hn, Hc.
Qed.

(** C8.  Printing the snapshot is a pure read.  It leaves the index as
    it was, every package with its flag, candidate and other fields, and
    downloads nothing; it only appends to the output.  On an index with
    unique names it prints one line for each package whose install flag
    is set and for no other; the reasons play no part: with other
    reasons the same lines are printed. *)
Theorem snapshot_is_a_pure_read (w : World) :
  (index (fst (print_snapshot w)) = index w
   /\ archives (fst (print_snapshot w)) = archives w
   /\ snd (print_snapshot w) = Return tt)
  /\ (wf_cache (index w) ->
      print_snapshot w
      = (mkWorld (index w)
           (output w ++
            map (fun p => entry_line (name p, version (candidate p)))
                (filter marked_install (index w)))
           (archives w),
         Return tt))
  /\ (forall reason : Package -> bool,
        output (fst (print_snapshot
                       (mkWorld (map (fun p => with_reason (reason p) p) (index w))
                                (output w) (archives w))))
        = output (fst (print_snapshot w))).
Proof.
  split; [|split].
  - rewrite print_snapshot_spec. auto.
  - intros Hwf. rewrite print_snapshot_spec, (snapshot_wf _ Hwf), map_map.
    reflexivity.
  - intros reason. rewrite !print_snapshot_spec. cbn [fst index output].
    rewrite snapshot_map; reflexivity.
Qed.

Lemma snapshot_is_a_pure_read_witness :
  print_snapshot (world0 (mark_defaults abc))
  = (mkWorld (mark_defaults abc) ["A=1.0"; "B=1"] [], Return tt).
Proof.
  apply (proj1 (proj2 (snapshot_is_a_pure_read (world0 (mark_defaults abc))))
           (wf_later grows _ _ grows_name (mark_defaults_grows abc) wf_abc)).
Defined.

(* ================================================================== *)
(** ** Resolving tokens *)

Lemma next_pkg_resolution token w :
  next_pkg token w =
  match resolution (index w) token with
  | Raise e => (w, Raise e)
  | Return (n, None) => (w, Return n)
  | Return (n, Some ver) =>
      (mkWorld (update n (with_candidate ver) (index w)) (output w) (archives w),
       Return n)
  end.
Proof.
  unfold next_pkg, resolution, bind, lift.
  destruct (parse token) as [[n [v|]]|e]; [| |reflexivity].
  - unfold getitem, read.
    destruct (cache_getitem n (index w)) as [p|] eqn:Hp; [|reflexivity].
    cbv beta iota. rewrite Hp. cbv beta iota.
    rewrite (cache_getitem_name _ _ _ Hp).
    destruct (lookup_version v (versions p)); reflexivity.
  - unfold getitem.
    destruct (cache_getitem n (index w)) as [p|] eqn:Hp; [|reflexivity].
    now rewrite (cache_getitem_name _ _ _ Hp).
Qed.

Lemma resolution_kept c c' token :
  Forall2 kept c c' -> resolution c' token = resolution c token.
Proof.
  intros H. unfold resolution.
  destruct (parse token) as [[n ov]|e]; [|reflexivity].
  pose proof (later_getitem kept kept_name n _ _ H) as L.
  destruct (cache_getitem n c) as [p|], (cache_getitem n c') as [p'|];
    try contradiction; [|reflexivity].
  destruct L as (_ & V & _). now rewrite V.
Qed.

Lemma first_error_kept c c' pkgs :
  Forall2 kept c c' -> first_error c' pkgs = first_error c pkgs.
Proof.
  intros H. induction pkgs as [|t r IH]; simpl; [reflexivity|].
  rewrite (resolution_kept _ _ t H), IH. reflexivity.
Qed.

Lemma outcome_kept c c' pkgs :
  Forall2 kept c c' -> outcome c' pkgs = outcome c pkgs.
Proof. intros H. unfold outcome. now rewrite (first_error_kept _ _ pkgs H). Qed.

Lemma resolution_name c token n ov :
  resolution c token = Return (n, ov) -> In n (names c).
Proof.
  unfold resolution. destruct (parse token) as [[m o]|e]; [|discriminate].
  destruct (cache_getitem m c) as [p|] eqn:Hp; [|discriminate].
  intros H. assert (m = n).
  { destruct o; [destruct (lookup_version _ _)|]; congruence. }
  subst m. rewrite <- (cache_getitem_name _ _ _ Hp). apply in_map.
  eapply cache_getitem_In; eauto.
Qed.

Lemma first_error_app c pre token post e :
  forallb (resolvable c) pre = true -> resolution c token = Raise e ->
  first_error c (pre ++ token :: post) = Some e.
Proof.
  intros Hpre Htok. induction pre as [|t r IH]; simpl in *.
  - now rewrite Htok.
  - apply andb_prop in Hpre. destruct Hpre as [Ht Hr]. unfold resolvable in Ht.
    destruct (resolution c t); [auto|discriminate].
Qed.

Lemma first_error_in c token pkgs e :
  In token pkgs -> resolution c token = Raise e ->
  exists e', first_error c pkgs = Some e'.
Proof.
  intros Hin Htok. induction pkgs as [|t r IH]; simpl in *; [contradiction|].
  destruct Hin as [->|Hin].
  - rewrite Htok. eauto.
  - destruct (resolution c t); eauto.
Qed.

Lemma first_error_none c pkgs :
  forallb (resolvable c) pkgs = true <-> first_error c pkgs = None.
Proof.
  induction pkgs as [|t r IH]; simpl; [tauto|]. unfold resolvable at 1.
  destruct (resolution c t); simpl; [exact IH|]. split; discriminate.
Qed.

(** A loop over the generator, for any body that returns on the packages
    of the index and changes only what [changes] allows. *)
Section Iterating.
Variable body : string -> M unit.
Variable changes : World -> World -> Prop.
Hypothesis changes_refl : forall w, changes w w.
Hypothesis changes_trans :
  forall w1 w2 w3, changes w1 w2 -> changes w2 w3 -> changes w1 w3.
Hypothesis changes_kept :
  forall w w', changes w w' -> Forall2 kept (index w) (index w').
Hypothesis changes_pin :
  forall w n ver,
    changes w (mkWorld (update n (with_candidate ver) (index w))
                       (output w) (archives w)).
Hypothesis body_returns :
  forall key w, In key (names (index w)) ->
                exists w', body key w = (w', Return tt) /\ changes w w'.

Lemma next_pkg_changes token w :
  exists w', changes w w' /\
    match resolution (index w) token with
    | Raise e => next_pkg token w = (w', Raise e)
    | Return (n, _) => next_pkg token w = (w', Return n)
                       /\ In n (names (index w'))
    end.
Proof.
  rewrite next_pkg_resolution.
  destruct (resolution (index w) token) as [[n [ver|]]|e] eqn:E.
  - eexists. split; [apply changes_pin|]. split; [reflexivity|].
    cbn [index]. pose proof (changes_kept _ _ (changes_pin w n ver)) as K.
    cbn [index] in K. rewrite (later_names kept kept_name _ _ K).
    eapply resolution_name; eauto.
  - exists w. split; [apply changes_refl|]. split; [reflexivity|].
    eapply resolution_name; eauto.
  - exists w. split; [apply changes_refl|reflexivity].
Qed.

Lemma iter_pkg_versions_outcome pkgs : forall w,
  exists w', iter_pkg_versions pkgs body w = (w', outcome (index w) pkgs)
             /\ changes w w'.
Proof.
  unfold iter_pkg_versions, outcome.
  induction pkgs as [|t r IH]; intros w; simpl.
  - exists w. split; [reflexivity|apply changes_refl].
  - destruct (next_pkg_changes t w) as (w1 & C1 & H).
    destruct (resolution (index w) t) as [[n ov]|e].
    + destruct H as [Hn Hin].
      destruct (body_returns n w1 Hin) as (w2 & Hb & C2).
      destruct (IH w2) as (w3 & H3 & C3).
      exists w3. split.
      * unfold bind at 1. unfold bind at 1. rewrite Hn, Hb, H3.
        rewrite (first_error_kept (index w) (index w2)); [reflexivity|].
        apply changes_kept. eapply changes_trans; eauto.
      * eapply changes_trans; [exact C1|]. eapply changes_trans; eauto.
    + exists w1. split; [|exact C1].
      unfold bind at 1. unfold bind at 1. now rewrite H.
Qed.
End Iterating.

Lemma planning_refl w : planning w w.
Proof. split; [same|]. split; reflexivity. Qed.

Lemma planning_trans w1 w2 w3 : planning w1 w2 -> planning w2 w3 -> planning w1 w3.
Proof.
  intros (K1&O1&A1) (K2&O2&A2). split.
  - eapply later_trans; [apply kept_trans|eauto|eauto].
  - split; congruence.
Qed.

Lemma explicit_pass pkgs w :
  exists w', iter_pkg_versions pkgs (fun pkg => modify_index (mark_install pkg)) w
             = (w', outcome (index w) pkgs)
             /\ planning w w'.
Proof.
  apply iter_pkg_versions_outcome.
  - apply planning_refl.
  - apply planning_trans.
  - now intros w0 w' (K&_).
  - intros w0 n ver. split; [|split; reflexivity]. cbn [index].
    updated.
  - intros key w0 _. eexists. split; [reflexivity|].
    split; [|split; reflexivity]. cbn [index].
    eapply Forall2_weaken; [apply grows_kept|apply mark_install_grows].
Qed.

Lemma plan_outcome pkgs w :
  exists w', plan pkgs w = (w', outcome (index w) pkgs) /\ planning w w'.
Proof.
  unfold plan, bind at 1, modify_index at 1.
  set (w0 := mkWorld (mark_defaults (index w)) (output w) (archives w)).
  assert (P0 : planning w w0).
  { split; [|split; reflexivity]. cbn [index w0].
    eapply Forall2_weaken; [apply grows_kept|apply mark_defaults_grows]. }
  destruct (explicit_pass pkgs w0) as (w' & H & P).
  exists w'. split.
  - rewrite H. f_equal. apply outcome_kept. now destruct P0.
  - eapply planning_trans; eauto.
Qed.

Lemma cmd_install_outcome opts w :
  exists w1, planning w w1 /\
    cmd_install opts w =
    match outcome (index w) (requested opts) with
    | Return _ =>
        (mkWorld (index w1)
                 (output w ++ map entry_line (snapshot (index w1)))
                 (archives w), Return 0%Z)
    | Raise e => (w1, Raise e)
    end.
Proof.
  destruct (plan_outcome (requested opts) w) as (w1 & H & P).
  exists w1. split; [exact P|]. unfold cmd_install, bind at 1. rewrite H.
  destruct (outcome (index w) (requested opts)); [|reflexivity].
  unfold bind at 1. rewrite print_snapshot_spec.
  destruct P as (_ & -> & ->). reflexivity.
Qed.

(* ================================================================== *)
(** ** The snapshot install prints *)



(** The snapshot of the three-package index after "C" and "A=2.0". *)
Example install_snapshot_abc :
  output (fst (cmd_install (mkInstallOpts ["C"; "A=2.0"] []) (world0 abc)))
  = ["A=2.0"; "B=1"; "C=3"].
Proof. reflexivity. Qed.

(* ================================================================== *)
(** ** The plan keeps the marked set closed *)

Lemma flag_pin c key pinned k :
  flag (update key (with_candidate pinned) c) k = flag c k.
Proof.
  unfold flag. rewrite getitem_update by reflexivity.
  destruct (cache_getitem k c) as [p|]; simpl; [|reflexivity].
  now destruct (name p =? key).
Qed.

Lemma deps_of_pin c key pinned k :
  k <> key -> deps_of (update key (with_candidate pinned) c) k = deps_of c k.
Proof.
  intros Hne. unfold deps_of. rewrite getitem_update by reflexivity.
  destruct (cache_getitem k c) as [p|] eqn:Hp; simpl; [|reflexivity].
  rewrite (cache_getitem_name _ _ _ Hp).
  destruct (String.eqb_spec k key); [contradiction|reflexivity].
Qed.

Lemma closed_pin c key pinned :
  closed c -> forall k, k <> key ->
  closed_at (update key (with_candidate pinned) c) k.
Proof.
  intros Hc k Hne Hk d Hd Hn.
  rewrite flag_pin in *. rewrite (deps_of_pin _ _ _ _ Hne) in Hd.
  assert (K : Forall2 kept c (update key (with_candidate pinned) c))
    by (updated).
  rewrite (later_names kept kept_name _ _ K) in Hn.
  now apply (Hc k).
Qed.

(** Whether install returns or raises, the marked packages of the index
    it leaves have their dependencies marked, if those of the index it
    found had. *)
Lemma plan_closed pkgs w : closed (index w) -> closed (index (fst (plan pkgs w))).
Proof.
  intros Hc. unfold plan, bind at 1, modify_index at 1.
  set (w0 := mkWorld (mark_defaults (index w)) (output w) (archives w)).
  assert (H0 : closed (index w0)) by (apply mark_defaults_closed, Hc).
  clearbody w0. clear Hc w. revert w0 H0. unfold iter_pkg_versions.
  induction pkgs as [|t r IH]; intros w Hc; simpl; [exact Hc|].
  unfold bind at 1. unfold bind at 1. rewrite next_pkg_resolution.
  destruct (resolution (index w) t) as [[n [pinned|]]|e]; [| |exact Hc].
  - unfold bind at 1, modify_index at 1. cbn [index output archives].
    apply IH. cbn [index]. apply mark_install_closed. now apply closed_pin.
  - unfold bind at 1, modify_index at 1. apply IH. cbn [index].
    apply mark_install_closed. intros k _. apply Hc.
Qed.

(* ================================================================== *)
(** ** Version pins *)

(** C4.  For a token that carries a version and names a package of the
    index: if the package has that version, the generator makes it the
    candidate of that package, touching no other package and no install
    flag, and only then yields the package, so the caller marks it with
    the pin in place and the pin outlasts the marking; if not, the
    generator raises the version-not-found error and yields nothing. *)
Theorem version_is_pinned_before_marking
    (token n v : string) (w : World) (p : Package)
    (Hparse : parse token = Return (n, Some v))
    (Hpkg : cache_getitem n (index w) = Some p) :
  match versions_getitem v (versions p) with
  | Some ver =>
      exists w1 p1,
        next_pkg token w = (w1, Return n)
        /\ cache_getitem n (index w1) = Some p1
        /\ candidate p1 = ver
        /\ version (candidate p1) = v
        /\ marked_install p1 = marked_install p
        /\ (forall key, key <> n ->
                        cache_getitem key (index w1) = cache_getitem key (index w))
        /\ (forall rest body,
              iter_pkg_versions (token :: rest) body w
              = (body n ;; iter_pkg_versions rest body) w1)
        /\ (exists p2, cache_getitem n (mark_install n (index w1)) = Some p2
                       /\ candidate p2 = ver /\ marked_install p2 = true)
  | None =>
      next_pkg token w = (w, Raise (KeyError_version v))
      /\ forall rest body,
           iter_pkg_versions (token :: rest) body w
           = (w, Raise (KeyError_version v))
  end.
Proof.
  pose proof (next_pkg_resolution token w) as Hn.
  unfold resolution, lookup_version in Hn. rewrite Hparse, Hpkg in Hn.
  destruct (versions_getitem v (versions p)) as [ver|] eqn:Hv.
  - assert (H1 : cache_getitem n (update n (with_candidate ver) (index w))
                 = Some (with_candidate ver p)).
    { rewrite getitem_update by reflexivity. rewrite Hpkg. simpl.
      now rewrite (cache_getitem_name _ _ _ Hpkg), String.eqb_refl. }
    eexists. exists (with_candidate ver p).
    split; [exact Hn|]. cbn [index].
    split; [exact H1|]. split; [reflexivity|].
    split; [now apply versions_getitem_version in Hv|].
    split; [reflexivity|]. split; [|split].
    + intros key Hne. rewrite getitem_update by reflexivity.
      destruct (cache_getitem key (index w)) as [q|] eqn:Hq; simpl; [|reflexivity].
      rewrite (cache_getitem_name _ _ _ Hq).
      destruct (String.eqb_spec key n); [contradiction|reflexivity].
    + intros rest body. unfold iter_pkg_versions. simpl.
      unfold bind at 1. unfold bind at 1. rewrite Hn. reflexivity.
    + destruct (mark_install_marks n _ _ H1) as (p2 & Hp2 & (_ & C & _) & M).
      exists p2. split; [exact Hp2|]. split; [exact C|exact M].
  - split; [exact Hn|]. intros rest body. unfold iter_pkg_versions. simpl.
    unfold bind at 1. unfold bind at 1. now rewrite Hn.
Qed.

Lemma version_is_pinned_before_marking_witness :
  (exists w1 p1,
     next_pkg "A_2.0" (world0 abc) = (w1, Return "A")
     /\ cache_getitem "A" (index w1) = Some p1
     /\ candidate p1 = ver "2.0" "optional" []
     /\ version (candidate p1) = "2.0"
     /\ marked_install p1 = false
     /\ (forall key, key <> "A" ->
                     cache_getitem key (index w1) = cache_getitem key abc)
     /\ (forall rest body,
           iter_pkg_versions ("A_2.0" :: rest) body (world0 abc)
           = (body "A" ;; iter_pkg_versions rest body) w1)
     /\ (exists p2, cache_getitem "A" (mark_install "A" (index w1)) = Some p2
                    /\ candidate p2 = ver "2.0" "optional" []
                    /\ marked_install p2 = true))
  /\ next_pkg "A=9" (world0 abc) = (world0 abc, Raise (KeyError_version "9")).
Proof.
  split.
  - apply (version_is_pinned_before_marking "A_2.0" "A" "2.0" (world0 abc)
             (pkg0 "A" [ver "1.0" "optional" []; ver "2.0" "optional" []]
                   (ver "1.0" "optional" []) true) eq_refl eq_refl).
  - apply (version_is_pinned_before_marking "A=9" "A" "9" (world0 abc)
             (pkg0 "A" [ver "1.0" "optional" []; ver "2.0" "optional" []]
                   (ver "1.0" "optional" []) true) eq_refl eq_refl).
Defined.

(* ================================================================== *)
(** ** Planning *)

Lemma resolution_unknown c token n ov :
  parse token = Return (n, ov) -> cache_getitem n c = None ->
  resolution c token = Raise (KeyError_package n).
Proof. intros Hp Hn. unfold resolution. now rewrite Hp, Hn. Qed.

(** C2 (amended).  When a requested name is absent from the index,
    install raises and prints nothing: no snapshot of the flags set so
    far is emitted.  The exception is that of the first request that does
    not resolve, so it is the unknown-package error when every request
    before the absent name resolves. *)
Theorem unknown_package_aborts_install (opts : InstallOpts) (w : World) :
  (forall pre token post n ov,
     requested opts = pre ++ token :: post ->
     forallb (resolvable (index w)) pre = true ->
     parse token = Return (n, ov) ->
     cache_getitem n (index w) = None ->
     exists w', cmd_install opts w = (w', Raise (KeyError_package n))
                /\ output w' = output w /\ archives w' = archives w)
  /\ (forall token n ov,
        In token (requested opts) ->
        parse token = Return (n, ov) ->
        cache_getitem n (index w) = None ->
        exists w' e, cmd_install opts w = (w', Raise e)
                     /\ output w' = output w /\ archives w' = archives w).
Proof.
  destruct (cmd_install_outcome opts w) as (w1 & (_ & O & A) & H).
  unfold outcome in H. split.
  - intros pre token post n ov Hreq Hpre Hp Hn.
    rewrite Hreq in H.
    rewrite (first_error_app _ pre token post _ Hpre
               (resolution_unknown _ _ _ _ Hp Hn)) in H.
    exists w1. auto.
  - intros token n ov Hin Hp Hn.
    destruct (first_error_in _ _ _ _ Hin (resolution_unknown _ _ _ _ Hp Hn))
      as (e & He).
    rewrite He in H. exists w1, e. auto.
Qed.

Lemma unknown_package_aborts_install_witness :
  exists w', cmd_install (mkInstallOpts ["A=2.0"; "zzz-does-not-exist"; "B"] [])
               (world0 abc)
             = (w', Raise (KeyError_package "zzz-does-not-exist"))
             /\ output w' = [] /\ archives w' = [].
Proof.
  apply (proj1 (unknown_package_aborts_install
                  (mkInstallOpts ["A=2.0"; "zzz-does-not-exist"; "B"] [])
                  (world0 abc))
           ["A=2.0"] "zzz-does-not-exist" ["B"] "zzz-does-not-exist" None);
    reflexivity.
Defined.

(** C2, as stated, fails: "zzz" is absent from the index, yet the
    request before it names a version that "A" does not have, and
    install raises the version-not-found error. *)
Lemma unknown_package_after_unknown_version :
  In "zzz" (requested (mkInstallOpts ["A=9"; "zzz"] []))
  /\ parse "zzz" = Return ("zzz", None)
  /\ cache_getitem "zzz" abc = None
  /\ snd (cmd_install (mkInstallOpts ["A=9"; "zzz"] []) (world0 abc))
     = Raise (KeyError_version "9")
  /\ snd (cmd_install (mkInstallOpts ["A=9"; "zzz"] []) (world0 abc))
     <> Raise (KeyError_package "zzz").
Proof.
  split; [simpl; tauto|]. repeat split. discriminate.
Qed.

(** The flags set before the failure stay set in the index in memory:
    nothing is rolled back, the snapshot is just never printed. *)
Example unknown_package_keeps_default_marks :
  map marked_install
      (index (fst (cmd_install (mkInstallOpts ["zzz"] []) (world0 abc))))
  = [true; true; false].
Proof. reflexivity. Qed.

Lemma count_eq_join a v :
  count "=" a = 0 -> count "=" v = 0 ->
  parse (a ++ "=" ++ v)%string = Return (a, Some v).
Proof.
  intros Ha Hv. rewrite parse_eq.
  - change (a ++ "=" ++ v)%string with (a ++ String "=" v)%string.
    now rewrite (split_join "=" a v Ha Hv).
  - rewrite count_app. simpl. lia.
Qed.

(** C6.  For a package of the index that the default pass marks and that
    has version [v], the request "a=v" makes install report the package
    at [v], once: the pin replaces the candidate the default pass left. *)
Theorem explicit_request_repins
    (w : World) (a v : string) (p : Package) (pinned : Version)
    (Hwf : wf_cache (index w))
    (Hpkg : cache_getitem a (index w) = Some p)
    (Hdefault : is_default p = true)
    (Hver : versions_getitem v (versions p) = Some pinned)
    (Ha : count "=" a = 0) (Hv : count "=" v = 0) :
  (exists p0, cache_getitem a (mark_defaults (index w)) = Some p0
              /\ marked_install p0 = true /\ candidate p0 = candidate p)
  /\ exists w',
       cmd_install (mkInstallOpts [(a ++ "=" ++ v)%string] []) w = (w', Return 0%Z)
       /\ output w' = output w ++ map entry_line (snapshot (index w'))
       /\ In (a, v) (snapshot (index w'))
       /\ forall v', In (a, v') (snapshot (index w')) -> v' = v.
Proof.
  destruct (mark_defaults_marks a (index w) p Hpkg Hdefault) as (p0 & Hp0 & G0 & M0).
  split; [exists p0; split; [exact Hp0|]; split; [exact M0|apply G0]|].
  set (c0 := mark_defaults (index w)) in *.
  set (c1 := update a (with_candidate pinned) c0).
  set (c2 := mark_install a c1).
  assert (Hres : resolution c0 (a ++ "=" ++ v)%string = Return (a, Some pinned)).
  { unfold resolution. rewrite (count_eq_join a v Ha Hv), Hp0.
    destruct G0 as ((_ & V & _) & _). unfold lookup_version. now rewrite V, Hver. }
  assert (Hrun : cmd_install (mkInstallOpts [(a ++ "=" ++ v)%string] []) w
                 = (mkWorld c2 (output w ++ map entry_line (snapshot c2)) (archives w),
                    Return 0%Z)).
  { unfold cmd_install, plan, requested, iter_pkg_versions. cbn [install_file install_packages for_each].
    unfold bind at 1. unfold bind at 1. unfold modify_index at 1.
    unfold bind at 1. unfold bind at 1.
    rewrite next_pkg_resolution. cbn [index output archives].
    fold c0. rewrite Hres. unfold modify_index, ret, bind. cbn [index output archives].
    rewrite print_snapshot_spec. reflexivity. }
  eexists. split; [exact Hrun|]. cbn [index output].
  split; [reflexivity|].
  assert (H1 : cache_getitem a c1 = Some (with_candidate pinned p0)).
  { unfold c1. rewrite getitem_update by reflexivity. rewrite Hp0. simpl.
    now rewrite (cache_getitem_name _ _ _ Hp0), String.eqb_refl. }
  destruct (mark_install_marks a c1 _ H1) as (p2 & Hp2 & G2 & M2).
  fold c2 in Hp2.
  assert (Hwf2 : wf_cache c2).
  { eapply (wf_later grows); [apply grows_name|apply mark_install_grows|].
    eapply (wf_later kept); [apply kept_name| |].
    - updated.
    - eapply (wf_later grows); [apply grows_name|apply mark_defaults_grows|exact Hwf]. }
  assert (Hc2 : version (candidate p2) = v).
  { destruct G2 as (_ & C & _). rewrite C. simpl.
    now apply versions_getitem_version in Hver. }
  split.
  - apply snapshot_In; [exact Hwf2|]. exists p2.
    split; [eapply cache_getitem_In; eauto|].
    split; [exact M2|]. split; [eapply cache_getitem_name; eauto|exact Hc2].
  - intros v' Hin. apply snapshot_In in Hin; [|exact Hwf2].
    destruct Hin as (q & Hq & _ & Hn & Hv').
    pose proof (cache_getitem_wf c2 q Hwf2 Hq) as E. rewrite Hn, Hp2 in E.
    injection E as <-. congruence.
Qed.

Lemma explicit_request_repins_witness :
  exists w',
    cmd_install (mkInstallOpts ["A=2.0"] []) (world0 abc) = (w', Return 0%Z)
    /\ output w' = [] ++ map entry_line (snapshot (index w'))
    /\ In ("A", "2.0") (snapshot (index w'))
    /\ forall v', In ("A", v') (snapshot (index w')) -> v' = "2.0".
Proof.
  apply (proj2 (explicit_request_repins (world0 abc) "A" "2.0"
           (pkg0 "A" [ver "1.0" "optional" []; ver "2.0" "optional" []]
                 (ver "1.0" "optional" []) true)
           (ver "2.0" "optional" [])
           wf_abc eq_refl eq_refl eq_refl eq_refl eq_refl)).
Defined.

(* ================================================================== *)
(** ** Requests read from files *)

(** C9.  With at least one -f/--file stream, install takes its requests
    from the last stream alone, stripped line by line: the positional
    packages and the earlier streams play no part. *)
Theorem last_file_overrides_requests
    (pkgs : list string) (streams : list (list string)) (last : list string) :
  requested (mkInstallOpts pkgs (streams ++ [last])) = map strip last
  /\ forall pkgs',
       cmd_install (mkInstallOpts pkgs (streams ++ [last]))
       = cmd_install (mkInstallOpts pkgs' [last]).
Proof.
  assert (H : forall ps, requested (mkInstallOpts ps (streams ++ [last]))
                         = map strip last).
  { intros ps. unfold requested. cbn [install_file install_packages].
    destruct (streams ++ [last]) as [|s ss] eqn:E.
    - now destruct streams.
    - rewrite <- E. now rewrite fold_left_app. }
  split; [apply H|]. intros pkgs'. unfold cmd_install.
  rewrite H. reflexivity.
Qed.

(* ================================================================== *)
(** ** Fetching *)

Lemma resolution_return c token n o :
  resolution c token = Return (n, o) ->
  exists ov p, parse token = Return (n, ov) /\ cache_getitem n c = Some p /\
    match ov, o with
    | None, None => True
    | Some v, Some pinned => versions_getitem v (versions p) = Some pinned
    | _, _ => False
    end.
Proof.
  unfold resolution, lookup_version.
  destruct (parse token) as [[m ov]|e]; [|discriminate].
  destruct (cache_getitem m c) as [p|] eqn:Hp; [|discriminate].
  destruct ov as [v|].
  - destruct (versions_getitem v (versions p)) as [pinned|] eqn:Hv; [|discriminate].
    intros H. injection H as <- <-. exists (Some v), p. auto.
  - intros H. injection H as <- <-. exists None, p. auto.
Qed.

Lemma fetch_binary_spec key dest w p :
  cache_getitem key (index w) = Some p ->
  fetch_binary key dest w
  = (mkWorld (index w) (output w)
             (archives w ++ [mkArtifact (name p) (version (candidate p)) dest]),
     Return tt).
Proof.
  intros Hp. unfold fetch_binary, bind, read. rewrite Hp. cbv beta iota.
  rewrite Hp. reflexivity.
Qed.

Lemma fetch_step dest token w n o :
  resolution (index w) token = Return (n, o) ->
  exists p1 w1,
    next_pkg token w = (w1, Return n)
    /\ cache_getitem n (index w1) = Some p1
    /\ Forall2 repins (index w) (index w1)
    /\ output w1 = output w /\ archives w1 = archives w
    /\ fetched_for dest token (mkArtifact (name p1) (version (candidate p1)) dest).
Proof.
  intros Hres. destruct (resolution_return _ _ _ _ Hres) as (ov & p & Hparse & Hp & Hov).
  pose proof (next_pkg_resolution token w) as Hn. rewrite Hres in Hn.
  destruct o as [pinned|]; destruct ov as [v|]; try contradiction.
  - exists (with_candidate pinned p). eexists. split; [exact Hn|]. cbn [index output archives].
    split; [|split; [|split; [|split]]]; try reflexivity.
    + rewrite getitem_update by reflexivity. rewrite Hp. simpl.
      now rewrite (cache_getitem_name _ _ _ Hp), String.eqb_refl.
    + updated.
    + exists n, (Some v). cbn. split; [exact Hparse|].
      split; [eapply cache_getitem_name; eauto|]. split; [reflexivity|].
      intros v0 E. injection E as <-.
      now apply versions_getitem_version in Hov.
  - exists p, w. split; [exact Hn|]. split; [exact Hp|].
    split; [same|]. split; [reflexivity|].
    split; [reflexivity|].
    exists n, None. cbn. split; [exact Hparse|].
    split; [eapply cache_getitem_name; eauto|]. split; [reflexivity|].
    discriminate.
Qed.

Lemma fetch_loop dest pkgs : forall w,
  exists w' arts,
    iter_pkg_versions pkgs (fun pkg => fetch_binary pkg dest) w
    = (w', outcome (index w) pkgs)
    /\ Forall2 repins (index w) (index w')
    /\ output w' = output w
    /\ archives w' = archives w ++ arts
    /\ List.length arts <= List.length pkgs
    /\ (first_error (index w) pkgs = None -> Forall2 (fetched_for dest) pkgs arts).
Proof.
  unfold iter_pkg_versions, outcome.
  induction pkgs as [|t r IH]; intros w; simpl.
  - exists w, []. rewrite app_nil_r. repeat split; auto.
    same.
  - destruct (resolution (index w) t) as [[n o]|e] eqn:Hres.
    + destruct (fetch_step dest t w n o Hres)
        as (p1 & w1 & Hn & Hp1 & R1 & O1 & A1 & F1).
      set (w2 := mkWorld (index w1) (output w1)
                   (archives w1 ++ [mkArtifact (name p1) (version (candidate p1)) dest])).
      destruct (IH w2) as (w3 & arts & H3 & R3 & O3 & A3 & L3 & F3).
      assert (K : Forall2 kept (index w) (index w2)).
      { cbn [index w2]. eapply Forall2_weaken; [apply repins_kept|exact R1]. }
      exists w3, (mkArtifact (name p1) (version (candidate p1)) dest :: arts).
      split; [|split; [|split; [|split; [|split]]]].
      * unfold bind at 1. unfold bind at 1.
        rewrite Hn, (fetch_binary_spec n dest w1 p1 Hp1). fold w2. rewrite H3.
        now rewrite (first_error_kept _ _ r K).
      * eapply later_trans; [apply repins_trans|exact R1|exact R3].
      * rewrite O3. exact O1.
      * rewrite A3. cbn [archives w2]. rewrite A1, <- app_assoc. reflexivity.
      * simpl. lia.
      * intros Hnone. constructor; [exact F1|]. apply F3.
        now rewrite (first_error_kept _ _ r K).
    + exists w, []. rewrite app_nil_r.
      split; [|split; [|split; [|split; [|split]]]]; auto.
      * unfold bind at 1. unfold bind at 1.
        rewrite next_pkg_resolution, Hres. reflexivity.
      * same.
      * simpl. lia.
      * discriminate.
Qed.

(** C7.  Fetch resolves every requested token through the generator and
    downloads one artifact for it, the candidate of the package it names
    after the token's own pin, and nothing else: install flags and
    reasons in the index stay as they were, so no dependency is marked or
    fetched.  When every token resolves there are as many artifacts as
    tokens, in the same order. *)
Theorem fetch_is_one_artifact_per_specifier
    (fs : string -> option (list string)) (opts : FetchOpts) (w : World)
    (pkgs : list string)
    (Hreq : fetch_requested fs opts = Return pkgs) :
  (forall token rest w0 n o,
     resolution (index w0) token = Return (n, o) ->
     exists p1 w1,
       next_pkg token w0 = (w1, Return n)
       /\ cache_getitem n (index w1) = Some p1
       /\ iter_pkg_versions (token :: rest)
            (fun pkg => fetch_binary pkg (fetch_dest opts)) w0
          = iter_pkg_versions rest
              (fun pkg => fetch_binary pkg (fetch_dest opts))
              (mkWorld (index w1) (output w1)
                 (archives w1 ++
                  [mkArtifact n (version (candidate p1)) (fetch_dest opts)])))
  /\ exists w' arts,
       cmd_fetch fs opts w
       = (w', match outcome (index w) pkgs with
              | Return _ => Return 0%Z
              | Raise e => Raise e
              end)
       /\ archives w' = archives w ++ arts
       /\ List.length arts <= List.length pkgs
       /\ (forallb (resolvable (index w)) pkgs = true ->
           Forall2 (fetched_for (fetch_dest opts)) pkgs arts)
       /\ Forall2 repins (index w) (index w')
       /\ output w' = output w.
Proof.
  split.
  - intros token rest w0 n o Hres.
    destruct (fetch_step (fetch_dest opts) token w0 n o Hres)
      as (p1 & w1 & Hn & Hp1 & _).
    exists p1, w1. split; [exact Hn|]. split; [exact Hp1|].
    unfold iter_pkg_versions. simpl. unfold bind at 1. unfold bind at 1.
    rewrite Hn, (fetch_binary_spec n _ w1 p1 Hp1).
    now rewrite (cache_getitem_name _ _ _ Hp1).
  - destruct (fetch_loop (fetch_dest opts) pkgs w)
      as (w' & arts & H & R & O & A & L & F).
    exists w', arts. split; [|split; [|split; [|split; [|split]]]]; auto.
    + unfold cmd_fetch, bind at 1, lift. rewrite Hreq.
      unfold bind at 1. rewrite H. now destruct (outcome (index w) pkgs).
    + intros Hall. apply F. now apply first_error_none.
Qed.

Lemma fetch_is_one_artifact_per_specifier_witness :
  exists w' arts,
    cmd_fetch (fun _ => None) (mkFetchOpts "/tmp" ["base"] false) (world0 with_dep)
    = (w', match outcome with_dep ["base"] with
           | Return _ => Return 0%Z
           | Raise e => Raise e
           end)
    /\ archives w' = [] ++ arts
    /\ List.length arts <= 1
    /\ (forallb (resolvable with_dep) ["base"] = true ->
        Forall2 (fetched_for "/tmp") ["base"] arts)
    /\ Forall2 repins with_dep (index w')
    /\ output w' = [].
Proof.
  apply (proj2 (fetch_is_one_artifact_per_specifier (fun _ => None)
                  (mkFetchOpts "/tmp" ["base"] false) (world0 with_dep)
                  ["base"] eq_refl)).
Defined.

(** On the index where "base" depends on "libz", fetching "base"
    downloads "base" alone. *)
Example fetch_base_alone :
  cmd_fetch (fun _ => None) (mkFetchOpts "/tmp" ["base"] false) (world0 with_dep)
  = (mkWorld with_dep [] [mkArtifact "base" "1" "/tmp"], Return 0%Z).
Proof. reflexivity. Qed.

(* ================================================================== *)
(** ** More on tokens *)

Lemma parse_raise token e :
  parse token = Raise e ->
  exists got, e = ValueError_unpack got /\ 3 <= got.
Proof.
  intros H.
  destruct (count "=" token) as [|[|k]] eqn:E.
  - destruct (count "_" token) as [|[|k]] eqn:U.
    + rewrite parse_plain in H by assumption. discriminate.
    + destruct (parse_once_underscore token E U) as (n & v & Hp & _). congruence.
    + destruct (parse_repeated token) as (got & Hg & Hp).
      * right. split; [exact E|lia].
      * exists got. split; [congruence|exact Hg].
  - destruct (parse_once_eq token E) as (n & v & Hp & _). congruence.
  - destruct (parse_repeated token) as (got & Hg & Hp).
    + left. lia.
    + exists got. split; [congruence|exact Hg].
Qed.

(** X1.  What the parser returns is the token again: a name alone is the
    whole token, which then has no separator; a name and a version are
    the two sides of the only '=' of the token, or, in a token without
    '=', of its only '_'. *)
Theorem parse_loses_nothing (token n : string) (ov : option string)
    (H : parse token = Return (n, ov)) :
  match ov with
  | None => n = token /\ count "=" token = 0 /\ count "_" token = 0
  | Some v =>
      (token = (n ++ "=" ++ v)%string /\ count "=" n = 0 /\ count "=" v = 0)
      \/ (token = (n ++ "_" ++ v)%string /\ count "=" token = 0
          /\ count "_" n = 0 /\ count "_" v = 0)
  end.
Proof.
  destruct (count "=" token) as [|[|k]] eqn:E.
  - destruct (count "_" token) as [|[|k]] eqn:U.
    + rewrite parse_plain in H by assumption. injection H as <- <-. auto.
    + rewrite parse_underscore in H by lia.
      destruct (split_once _ _ U) as (a & b & Hs & Ht & Ha & Hb).
      rewrite Hs in H. simpl in H. injection H as <- <-. right. auto.
    + destruct (parse_repeated token) as (got & _ & Hp); [|congruence].
      right. split; [exact E|lia].
  - rewrite parse_eq in H by lia.
    destruct (split_once _ _ E) as (a & b & Hs & Ht & Ha & Hb).
    rewrite Hs in H. simpl in H. injection H as <- <-. left. auto.
  - destruct (parse_repeated token) as (got & _ & Hp); [|congruence].
    left. lia.
Qed.

Lemma parse_loses_nothing_witness :
  ("libfoo_1=2_3" = ("libfoo_1" ++ "=" ++ "2_3")%string
   /\ count "=" "libfoo_1" = 0 /\ count "=" "2_3" = 0)
  \/ ("libfoo_1=2_3" = ("libfoo_1" ++ "_" ++ "2_3")%string
      /\ count "=" "libfoo_1=2_3" = 0
      /\ count "_" "libfoo_1" = 0 /\ count "_" "2_3" = 0).
Proof.
  apply (parse_loses_nothing "libfoo_1=2_3" "libfoo_1" (Some "2_3")). reflexivity.
Defined.

(** X2.  A token the generator cannot resolve leaves the world as it
    was, candidate included, and the exception tells why: the separator
    found repeats, the name is not in the index, or the package lacks the
    version. *)
Theorem next_pkg_fails_cleanly (token : string) (w w' : World) (e : Exception)
    (H : next_pkg token w = (w', Raise e)) :
  w' = w
  /\ ((exists got, e = ValueError_unpack got /\ 3 <= got
                   /\ parse token = Raise e)
      \/ (exists n ov, e = KeyError_package n
                       /\ parse token = Return (n, ov)
                       /\ cache_getitem n (index w) = None)
      \/ (exists n v p, e = KeyError_version v
                        /\ parse token = Return (n, Some v)
                        /\ cache_getitem n (index w) = Some p
                        /\ versions_getitem v (versions p) = None)).
Proof.
  rewrite next_pkg_resolution in H. unfold resolution, lookup_version in H.
  destruct (parse token) as [[n ov]|e0] eqn:Hp.
  - destruct (cache_getitem n (index w)) as [p|] eqn:Hn.
    + destruct ov as [v|]; [|discriminate].
      destruct (versions_getitem v (versions p)) as [pinned|] eqn:Hv; [discriminate|].
      injection H as <- <-. split; [reflexivity|].
      right. right. exists n, v, p. auto.
    + injection H as <- <-. split; [reflexivity|].
      right. left. exists n, ov. auto.
  - injection H as <- <-. split; [reflexivity|]. left.
    destruct (parse_raise token e0 Hp) as (got & -> & Hg). eauto.
Qed.

Lemma next_pkg_fails_cleanly_witness :
  world0 abc = world0 abc
  /\ ((exists got, KeyError_version "9" = ValueError_unpack got /\ 3 <= got
                   /\ parse "A=9" = Raise (KeyError_version "9"))
      \/ (exists n ov, KeyError_version "9" = KeyError_package n
                       /\ parse "A=9" = Return (n, ov)
                       /\ cache_getitem n (index (world0 abc)) = None)
      \/ (exists n v p, KeyError_version "9" = KeyError_version v
                        /\ parse "A=9" = Return (n, Some v)
                        /\ cache_getitem n (index (world0 abc)) = Some p
                        /\ versions_getitem v (versions p) = None)).
Proof.
  apply (next_pkg_fails_cleanly "A=9" (world0 abc) (world0 abc)
           (KeyError_version "9")).
  reflexivity.
Defined.

(* ================================================================== *)
(** ** Stripping lines *)

Lemma rstrip_space s c : isspace c = true -> rstrip (s ++ String c "") = rstrip s.
Proof.
  intros Hc. induction s as [|a r IH]; simpl.
  - now rewrite Hc.
  - now rewrite IH.
Qed.

Lemma rstrip_clean s : clean s = true -> rstrip s = s.
Proof.
  unfold clean. induction s as [|a r IH]; simpl; [reflexivity|].
  intros H. apply andb_prop in H. destruct H as [Ha Hr].
  rewrite (IH Hr). destruct r; [|reflexivity].
  apply negb_true_iff in Ha. now rewrite Ha.
Qed.

Lemma lstrip_clean s t : clean s = true -> s <> "" -> lstrip (s ++ t) = (s ++ t)%string.
Proof.
  unfold clean. destruct s as [|a r]; [congruence|]. simpl.
  intros H _. apply andb_prop in H. destruct H as [Ha _].
  apply negb_true_iff in Ha. now rewrite Ha.
Qed.

Lemma strip_line s : clean s = true -> strip (s ++ newline) = s.
Proof.
  intros H. unfold strip. destruct s as [|a r].
  - reflexivity.
  - rewrite lstrip_clean by (auto; discriminate).
    unfold newline. rewrite rstrip_space by reflexivity. now apply rstrip_clean.
Qed.

Lemma strip_blank s : blank s = true -> strip s = "".
Proof.
  unfold strip, blank. induction s as [|a r IH]; simpl; [reflexivity|].
  intros H. apply andb_prop in H. destruct H as [Ha Hr]. rewrite Ha. auto.
Qed.

Lemma strip_readlines tokens :
  forallb clean tokens = true -> map strip (readlines tokens) = tokens.
Proof.
  unfold readlines. rewrite map_map.
  induction tokens as [|t r IH]; simpl; [reflexivity|].
  intros H. apply andb_prop in H. destruct H as [Ht Hr].
  now rewrite (strip_line t Ht), (IH Hr).
Qed.

Lemma clean_app a b : clean (a ++ b) = clean a && clean b.
Proof.
  unfold clean. induction a as [|c r IH]; simpl; [reflexivity|].
  now rewrite IH, andb_assoc.
Qed.

Lemma clean_entry_line n v :
  clean n = true -> clean v = true -> clean (entry_line (n, v)) = true.
Proof.
  intros Hn Hv. unfold entry_line. cbn [fst snd]. rewrite !clean_app, Hn, Hv. reflexivity.
Qed.

(* ================================================================== *)
(** ** What install does to the index *)

Lemma settles_refl p : settles p p.
Proof. split; [apply kept_refl|auto]. Qed.

Lemma settles_trans p q r : settles p q -> settles q r -> settles p r.
Proof. intros (K1&M1) (K2&M2). split; [eapply kept_trans; eauto|auto]. Qed.

Lemma settles_name p p' : settles p p' -> name p' = name p.
Proof. intros (K&_). now apply kept_name. Qed.

Lemma settles_kept p p' : settles p p' -> kept p p'.
Proof. now intros (K&_). Qed.

Lemma grows_settles p p' : grows p p' -> settles p p'.
Proof. intros (K&_&M). now split. Qed.

Lemma with_candidate_settles v p : settles p (with_candidate v p).
Proof. split; [apply with_candidate_kept|auto]. Qed.

Lemma flag_settles c c' k :
  Forall2 settles c c' -> flag c k = true -> flag c' k = true.
Proof.
  intros H. unfold flag. pose proof (later_getitem settles settles_name k _ _ H) as L.
  destruct (cache_getitem k c) as [p|], (cache_getitem k c') as [p'|];
    try contradiction; [|discriminate]. apply L.
Qed.

Lemma explicit_pass_settles pkgs w :
  exists w', iter_pkg_versions pkgs (fun pkg => modify_index (mark_install pkg)) w
             = (w', outcome (index w) pkgs)
             /\ Forall2 settles (index w) (index w')
             /\ output w' = output w /\ archives w' = archives w.
Proof.
  apply (iter_pkg_versions_outcome
           (fun pkg => modify_index (mark_install pkg))
           (fun w0 w1 => Forall2 settles (index w0) (index w1)
                         /\ output w1 = output w0 /\ archives w1 = archives w0)).
  - intros w0. split; [apply later_refl, settles_refl|split; reflexivity].
  - intros w1 w2 w3 (S1&O1&A1) (S2&O2&A2). split.
    + eapply later_trans; [apply settles_trans|eauto|eauto].
    + split; congruence.
  - intros w0 w1 (S&_). eapply Forall2_weaken; [apply settles_kept|exact S].
  - intros w0 n pinned. split; [|split; reflexivity]. cbn [index].
    apply later_update; [apply settles_refl|apply with_candidate_settles].
  - intros key w0 _. eexists. split; [reflexivity|].
    split; [|split; reflexivity]. cbn [index].
    eapply Forall2_weaken; [apply grows_settles|apply mark_install_grows].
Qed.

Lemma plan_settles pkgs w :
  exists w', plan pkgs w = (w', outcome (index w) pkgs)
             /\ Forall2 settles (index w) (index w')
             /\ output w' = output w /\ archives w' = archives w.
Proof.
  unfold plan, bind at 1, modify_index at 1.
  set (w0 := mkWorld (mark_defaults (index w)) (output w) (archives w)).
  assert (S0 : Forall2 settles (index w) (index w0)).
  { cbn [index w0]. eapply Forall2_weaken; [apply grows_settles|].
    apply mark_defaults_grows. }
  destruct (explicit_pass_settles pkgs w0) as (w' & H & S & O & A).
  exists w'. split; [|split; [|split]].
  - rewrite H. f_equal. apply outcome_kept.
    eapply Forall2_weaken; [apply settles_kept|exact S0].
  - eapply later_trans; [apply settles_trans|exact S0|exact S].
  - exact O.
  - exact A.
Qed.

Lemma cmd_install_plan opts w :
  cmd_install opts w =
  match plan (requested opts) w with
  | (w1, Return _) =>
      (mkWorld (index w1) (output w1 ++ map entry_line (snapshot (index w1)))
               (archives w1), Return 0%Z)
  | (w1, Raise e) => (w1, Raise e)
  end.
Proof.
  unfold cmd_install, bind at 1.
  destruct (plan (requested opts) w) as [w1 [[]|e]]; [|reflexivity].
  unfold bind at 1. now rewrite print_snapshot_spec.
Qed.

Lemma install_only_adds_marks_aux opts w :
  Forall2 settles (index w) (index (fst (cmd_install opts w))).
Proof.
  rewrite cmd_install_plan.
  destruct (plan_settles (requested opts) w) as (w1 & H & S & _).
  rewrite H. now destruct (outcome (index w) (requested opts)).
Qed.



(** X4.  Whether install returns, and with which exception it raises, is
    decided by the index as loaded: it returns when every request
    resolves against it, and otherwise raises the exception of the first
    request that does not, printing nothing.  The default pass and the
    requests handled before play no part. *)
Theorem install_outcome_is_decided_by_loaded_index (opts : InstallOpts) (w : World) :
  (forallb (resolvable (index w)) (requested opts) = true ->
   exists w', cmd_install opts w = (w', Return 0%Z)
              /\ output w' = output w ++ map entry_line (snapshot (index w')))
  /\ (forall e, first_error (index w) (requested opts) = Some e ->
      exists w', cmd_install opts w = (w', Raise e) /\ output w' = output w).
Proof.
  rewrite cmd_install_plan.
  destruct (plan_settles (requested opts) w) as (w1 & H & S & O & A).
  rewrite H. unfold outcome. split.
  - intros Hall. apply first_error_none in Hall. rewrite Hall.
    eexists. split; [reflexivity|]. cbn [index output]. now rewrite O.
  - intros e He. rewrite He. exists w1. auto.
Qed.

Lemma install_outcome_is_decided_by_loaded_index_witness :
  (exists w', cmd_install (mkInstallOpts ["A_2.0"; "C"] []) (world0 abc)
              = (w', Return 0%Z)
              /\ output w' = [] ++ map entry_line (snapshot (index w')))
  /\ (exists w', cmd_install (mkInstallOpts ["C"; "A=1=0"; "zzz"] []) (world0 abc)
                 = (w', Raise (ValueError_unpack 3)) /\ output w' = []).
Proof.
  split.
  - apply (proj1 (install_outcome_is_decided_by_loaded_index
                    (mkInstallOpts ["A_2.0"; "C"] []) (world0 abc))).
    reflexivity.
  - apply (proj2 (install_outcome_is_decided_by_loaded_index
                    (mkInstallOpts ["C"; "A=1=0"; "zzz"] []) (world0 abc))).
    reflexivity.
Defined.

(* ================================================================== *)
(** ** What the snapshot holds after install *)



Lemma flag_snapshot c n :
  wf_cache c -> flag c n = true -> In n (map fst (snapshot c)).
Proof.
  intros Hwf Hf. unfold flag in Hf.
  destruct (cache_getitem n c) as [p|] eqn:Hp; [|discriminate].
  apply in_map_iff. exists (n, version (candidate p)). split; [reflexivity|].
  apply snapshot_In; [exact Hwf|]. exists p.
  split; [eapply cache_getitem_In; eauto|].
  split; [exact Hf|]. split; [eapply cache_getitem_name; eauto|reflexivity].
Qed.

Lemma snapshot_flag c n :
  wf_cache c -> In n (map fst (snapshot c)) -> flag c n = true.
Proof.
  intros Hwf Hin. apply in_map_iff in Hin. destruct Hin as ([m v] & E & Hin).
  simpl in E. subst m. apply snapshot_In in Hin; [|exact Hwf].
  destruct Hin as (p & Hp & Hm & Hn & _).
  unfold flag. rewrite <- Hn. now rewrite (cache_getitem_wf c p Hwf Hp).
Qed.

(* ================================================================== *)
(** ** Repeated requests *)

Lemma for_each_app {A} (xs ys : list A) (body : A -> M unit) w :
  for_each (xs ++ ys) body w =
  match for_each xs body w with
  | (w1, Return _) => for_each ys body w1
  | (w1, Raise e) => (w1, Raise e)
  end.
Proof.
  revert w. induction xs as [|x xs IH]; intros w; simpl; [reflexivity|].
  unfold bind. destruct (body x w) as [w1 [[]|e]]; [apply IH|reflexivity].
Qed.

Lemma getitem_update_other key f c k :
  (forall p, name (f p) = name p) -> k <> key ->
  cache_getitem k (update key f c) = cache_getitem k c.
Proof.
  intros Hf Hne. rewrite getitem_update by exact Hf.
  destruct (cache_getitem k c) as [p|] eqn:Hp; simpl; [|reflexivity].
  rewrite (cache_getitem_name _ _ _ Hp).
  destruct (String.eqb_spec k key); [contradiction|reflexivity].
Qed.



Lemma find_version v vs :
  In v vs -> exists v', versions_getitem (version v) vs = Some v'.
Proof.
  unfold versions_getitem. induction vs as [|x vs IH]; simpl; [contradiction|].
  intros [->|H].
  - rewrite String.eqb_refl. eauto.
  - destruct (version x =? version v); eauto.
Qed.



(* ================================================================== *)
(** ** The snapshot is closed under dependencies *)

Lemma cmd_install_index opts w :
  index (fst (cmd_install opts w)) = index (fst (plan (requested opts) w)).
Proof.
  rewrite cmd_install_plan.
  now destruct (plan (requested opts) w) as [w1 [[]|e]].
Qed.

(** X7.  On an index whose marked packages have their dependencies
    marked, as a freshly loaded one, whatever install lists brings its
    dependencies along: a dependency of the candidate of a listed
    package is listed too, when the index knows it.  Pins do not break
    this, since each pinned package is marked again right after. *)
Theorem snapshot_is_closed_under_dependencies
    (opts : InstallOpts) (w : World)
    (Hwf : wf_cache (index w)) (Hclosed : closed (index w)) :
  let c' := index (fst (cmd_install opts w)) in
  forall n v d,
    In (n, v) (snapshot c') -> In d (deps_of c' n) -> In d (names c') ->
    In d (map fst (snapshot c')).
Proof.
  intros c' n v d Hin Hd Hn.
  assert (Hwf' : wf_cache c').
  { eapply (wf_later settles); [apply settles_name| |exact Hwf].
    apply install_only_adds_marks_aux. }
  assert (Hc : closed c').
  { unfold c'. rewrite cmd_install_index. now apply plan_closed. }
  apply flag_snapshot; [exact Hwf'|]. apply (Hc n); [|exact Hd|exact Hn].
  apply snapshot_flag; [exact Hwf'|]. apply in_map_iff. now exists (n, v).
Qed.

Lemma wf_with_dep : wf_cache with_dep.
Proof.
  unfold wf_cache. simpl. repeat constructor; simpl; intuition discriminate.
Qed.

Lemma snapshot_is_closed_under_dependencies_witness :
  In "libz" (map fst (snapshot (index (fst (cmd_install (mkInstallOpts ["game"] [])
                                              (world0 with_dep)))))).
Proof.
  apply (snapshot_is_closed_under_dependencies
           (mkInstallOpts ["game"] []) (world0 with_dep) wf_with_dep
           (closed_fresh with_dep ltac:(repeat constructor))
           "base" "1" "libz").
  - simpl. auto.
  - simpl. auto.
  - simpl. auto.
Defined.

(* ================================================================== *)
(** ** Requests read from files, again *)

Lemma requested_last pkgs streams last :
  requested (mkInstallOpts pkgs (streams ++ [last])) = map strip last.
Proof.
  unfold requested. cbn [install_file install_packages].
  destruct (streams ++ [last]) as [|s ss] eqn:E.
  - now destruct streams.
  - rewrite <- E. now rewrite fold_left_app.
Qed.

(** X8.  A request file with one token per line, none containing
    whitespace, stands for the same tokens given on the command line:
    for install (the last -f stream), and for fetch (-f, the file being
    the first positional argument and the others unused). *)
Theorem request_file_stands_for_positional_tokens
    (tokens : list string) (Hclean : forallb clean tokens = true) :
  (forall pkgs streams,
     cmd_install (mkInstallOpts pkgs (streams ++ [readlines tokens]))
     = cmd_install (mkInstallOpts tokens []))
  /\ (forall fs dest path rest,
        fs path = Some (readlines tokens) ->
        cmd_fetch fs (mkFetchOpts dest (path :: rest) true)
        = cmd_fetch fs (mkFetchOpts dest tokens false)).
Proof.
  split.
  - intros pkgs streams. unfold cmd_install.
    now rewrite requested_last, (strip_readlines tokens Hclean).
  - intros fs dest path rest Hfs. unfold cmd_fetch, fetch_requested.
    cbn [fetch_file fetch_packages fetch_dest].
    now rewrite Hfs, (strip_readlines tokens Hclean).
Qed.

Lemma request_file_stands_for_positional_tokens_witness :
  cmd_install (mkInstallOpts ["ignored"] [["x"]; readlines ["A=2.0"; "C"]])
  = cmd_install (mkInstallOpts ["A=2.0"; "C"] []).
Proof.
  apply (proj1 (request_file_stands_for_positional_tokens ["A=2.0"; "C"] eq_refl)
           ["ignored"] [["x"]]).
Defined.

(** X9.  A line of whitespace in the request file, an empty last line
    included, is the request for a package with the empty name: when the
    lines before it resolve and the index has no such package, install
    raises the unknown-package error for "" and prints nothing. *)
Theorem blank_line_aborts_install
    (opts : InstallOpts) (w : World)
    (streams : list (list string)) (before after : list string) (line : string)
    (Hfile : install_file opts = streams ++ [before ++ line :: after])
    (Hblank : blank line = true)
    (Hbefore : forallb (resolvable (index w)) (map strip before) = true)
    (Hnone : cache_getitem "" (index w) = None) :
  exists w', cmd_install opts w = (w', Raise (KeyError_package ""))
             /\ output w' = output w.
Proof.
  assert (Hreq : requested opts = map strip before ++ "" :: map strip after).
  { destruct opts as [pkgs files]. cbn [install_file] in Hfile. subst files.
    rewrite requested_last, map_app. simpl. now rewrite (strip_blank line Hblank). }
  rewrite cmd_install_plan.
  destruct (plan_settles (requested opts) w) as (w1 & Hplan & _ & O & _).
  rewrite Hplan. unfold outcome. rewrite Hreq.
  rewrite (first_error_app _ _ "" _ (KeyError_package "") Hbefore).
  - exists w1. auto.
  - apply (resolution_unknown _ "" "" None); [reflexivity|exact Hnone].
Qed.

Lemma blank_line_aborts_install_witness :
  exists w',
    cmd_install (mkInstallOpts [] [readlines ["C"; ""]]) (world0 abc)
    = (w', Raise (KeyError_package "")) /\ output w' = [].
Proof.
  apply (blank_line_aborts_install
           (mkInstallOpts [] [readlines ["C"; ""]]) (world0 abc)
           [] (readlines ["C"]) [] (String (ascii_of_nat 10) "")
           eq_refl eq_refl eq_refl eq_refl).
Defined.

(* ================================================================== *)
(** ** From install to fetch *)

Lemma Forall2_map_eq {A B C} (f : A -> B) (g : A -> C) (R : B -> C -> Prop) l ys :
  (forall x y, In x l -> R (f x) y -> y = g x) ->
  Forall2 R (map f l) ys -> ys = map g l.
Proof.
  revert ys. induction l as [|x l IH]; intros ys Hg H; simpl in *.
  - now inversion H.
  - inversion H as [|? y ? ys' Hxy Hrest]; subst. f_equal.
    + apply Hg; auto.
    + apply IH; auto.
Qed.

Lemma entry_line_parses n v :
  count "=" n = 0 -> count "=" v = 0 ->
  parse (entry_line (n, v)) = Return (n, Some v).
Proof. intros Hn Hv. unfold entry_line. cbn [fst snd]. now apply count_eq_join. Qed.

(** X10.  What install prints can be fed back to fetch.  Take an index
    with unique names in which every marked package has its candidate
    among its versions and has a name and a candidate version free of
    '=' and of whitespace.  Given the file of its snapshot lines, fetch
    -f on an index with the same packages and versions downloads exactly
    the snapshot: one artifact per line, that package at that version,
    in the same order. *)
Theorem fetch_of_install_output
    (ci : Cache) (w : World) (fs : string -> option (list string))
    (dest path : string) (rest : list string)
    (Hwf : wf_cache ci)
    (Hsane : forall p, In p ci -> marked_install p = true ->
               In (candidate p) (versions p)
               /\ count "=" (name p) = 0 /\ count "=" (version (candidate p)) = 0
               /\ clean (name p) = true /\ clean (version (candidate p)) = true)
    (Hsame : Forall2 kept ci (index w))
    (Hfile : fs path = Some (readlines (map entry_line (snapshot ci)))) :
  exists w',
    cmd_fetch fs (mkFetchOpts dest (path :: rest) true) w = (w', Return 0%Z)
    /\ archives w'
       = archives w ++ map (fun e => mkArtifact (fst e) (snd e) dest) (snapshot ci)
    /\ output w' = output w.
Proof.
  rewrite (snapshot_wf ci Hwf) in *.
  set (l := filter marked_install ci) in *.
  assert (Hl : forall p, In p l -> In p ci /\ marked_install p = true)
    by (intros p Hp; now apply filter_In in Hp).
  set (pair := fun p => (name p, version (candidate p))) in *.
  assert (Hclean : forallb clean (map entry_line (map pair l)) = true).
  { apply forallb_forall. intros t Ht. rewrite map_map in Ht.
    apply in_map_iff in Ht. destruct Ht as (p & <- & Hp).
    destruct (Hl p Hp) as [Hin Hm].
    destruct (Hsane p Hin Hm) as (_ & _ & _ & Cn & Cv).
    now apply clean_entry_line. }
  assert (Hparse : forall p, In p l ->
            parse (entry_line (pair p)) = Return (name p, Some (version (candidate p)))).
  { intros p Hp. destruct (Hl p Hp) as [Hin Hm].
    destruct (Hsane p Hin Hm) as (_ & En & Ev & _).
    now apply entry_line_parses. }
  assert (Hres : forallb (resolvable (index w)) (map entry_line (map pair l)) = true).
  { apply forallb_forall. intros t Ht. rewrite map_map in Ht.
    apply in_map_iff in Ht. destruct Ht as (p & <- & Hp).
    destruct (Hl p Hp) as [Hin Hm].
    destruct (Hsane p Hin Hm) as (Hcand & _).
    unfold resolvable, resolution. rewrite (Hparse p Hp).
    destruct (later_getitem_some kept kept_name (name p) _ _ p Hsame
                (cache_getitem_wf ci p Hwf Hin)) as (p' & Hp' & (_ & V & _)).
    rewrite Hp', V. unfold lookup_version.
    destruct (find_version _ _ Hcand) as (v' & Hv'). now rewrite Hv'. }
  destruct (fetch_loop dest (map entry_line (map pair l)) w)
    as (w' & arts & H & _ & O & A & _ & F).
  exists w'. split; [|split; [|exact O]].
  - unfold cmd_fetch, fetch_requested, bind at 1, lift.
    cbn [fetch_file fetch_packages fetch_dest].
    rewrite Hfile, (strip_readlines _ Hclean). unfold bind at 1.
    rewrite H. unfold outcome.
    now rewrite (proj1 (first_error_none _ _) Hres).
  - rewrite A. f_equal.
    specialize (F (proj1 (first_error_none _ _) Hres)).
    rewrite map_map in F. rewrite map_map.
    apply (Forall2_map_eq (fun p => entry_line (pair p))
             (fun p => mkArtifact (fst (pair p)) (snd (pair p)) dest)
             (fetched_for dest) l arts); [|exact F].
    intros p art Hp (n & ov & Hpn & Hn & Hd & Hv).
    rewrite (Hparse p Hp) in Hpn. injection Hpn as <- <-.
    destruct art as [an av ad]. cbn in *. subst an ad.
    now rewrite (Hv _ eq_refl).
Qed.

Lemma fetch_of_install_output_witness :
  exists w',
    cmd_fetch (fun _ => Some (readlines (map entry_line (snapshot (mark_defaults abc)))))
              (mkFetchOpts "/tmp" ["list"] true) (world0 abc)
    = (w', Return 0%Z)
    /\ archives w'
       = [] ++ map (fun e => mkArtifact (fst e) (snd e) "/tmp")
                   (snapshot (mark_defaults abc))
    /\ output w' = [].
Proof.
  apply (fetch_of_install_output (mark_defaults abc) (world0 abc)
           (fun _ => Some (readlines (map entry_line (snapshot (mark_defaults abc)))))
           "/tmp" "list" []).
  - unfold wf_cache. simpl. repeat constructor; simpl; intuition discriminate.
  - intros p Hp Hm. simpl in Hp.
    destruct Hp as [<-|[<-|[<-|[]]]]; try discriminate Hm; simpl;
      repeat split; auto.
  - repeat constructor.
  - reflexivity.
Defined.

(** X11.  Fetch stops at the first token that does not resolve and
    raises its exception; the artifacts of the tokens before it, one
    each, have been downloaded by then and stay. *)
Theorem fetch_stops_at_first_failure
    (fs : string -> option (list string)) (opts : FetchOpts) (w : World)
    (pre post : list string) (token : string) (e : Exception)
    (Hreq : fetch_requested fs opts = Return (pre ++ token :: post))
    (Hpre : forallb (resolvable (index w)) pre = true)
    (Htoken : resolution (index w) token = Raise e) :
  exists w' arts,
    cmd_fetch fs opts w = (w', Raise e)
    /\ archives w' = archives w ++ arts
    /\ Forall2 (fetched_for (fetch_dest opts)) pre arts
    /\ Forall2 repins (index w) (index w').
Proof.
  destruct (fetch_loop (fetch_dest opts) pre w)
    as (w1 & arts & H & R & _ & A & _ & F).
  exists w1, arts. split; [|split; [exact A|split; [|exact R]]].
  - unfold cmd_fetch, bind at 1, lift. rewrite Hreq. unfold bind at 1.
    unfold iter_pkg_versions in *. rewrite for_each_app, H.
    unfold outcome. rewrite (proj1 (first_error_none _ _) Hpre).
    simpl. unfold bind at 1. unfold bind at 1. rewrite next_pkg_resolution.
    rewrite (resolution_kept (index w) (index w1)), Htoken; [reflexivity|].
    eapply Forall2_weaken; [apply repins_kept|exact R].
  - apply F. now apply first_error_none.
Qed.

Lemma fetch_stops_at_first_failure_witness :
  exists w' arts,
    cmd_fetch (fun _ => None) (mkFetchOpts "/tmp" ["A=2.0"; "zzz"; "B"] false)
              (world0 abc)
    = (w', Raise (KeyError_package "zzz"))
    /\ archives w' = [] ++ arts
    /\ Forall2 (fetched_for "/tmp") ["A=2.0"] arts
    /\ Forall2 repins abc (index w').
Proof.
  apply (fetch_stops_at_first_failure (fun _ => None)
           (mkFetchOpts "/tmp" ["A=2.0"; "zzz"; "B"] false) (world0 abc)
           ["A=2.0"] ["B"] "zzz" (KeyError_package "zzz")
           eq_refl eq_refl eq_refl).
Defined.

(* ================================================================== *)
(** ** Showing records *)

Lemma pin_step token w n o :
  resolution (index w) token = Return (n, o) ->
  exists ov p p1 w1,
    parse token = Return (n, ov)
    /\ cache_getitem n (index w) = Some p
    /\ next_pkg token w = (w1, Return n)
    /\ cache_getitem n (index w1) = Some p1
    /\ Forall2 repins (index w) (index w1)
    /\ output w1 = output w /\ archives w1 = archives w
    /\ (forall v pinned, ov = Some v ->
          versions_getitem v (versions p) = Some pinned -> candidate p1 = pinned).
Proof.
  intros Hres. destruct (resolution_return _ _ _ _ Hres) as (ov & p & Hparse & Hp & Hov).
  pose proof (next_pkg_resolution token w) as Hn. rewrite Hres in Hn.
  exists ov, p.
  destruct o as [pinned|]; destruct ov as [v|]; try contradiction.
  - exists (with_candidate pinned p). eexists.
    split; [exact Hparse|]. split; [exact Hp|]. split; [exact Hn|].
    cbn [index output archives].
    split; [|split; [|split; [|split]]]; try reflexivity.
    + rewrite getitem_update by reflexivity. rewrite Hp. simpl.
      now rewrite (cache_getitem_name _ _ _ Hp), String.eqb_refl.
    + updated.
    + intros v0 pinned0 E Hv. injection E as <-. cbn. congruence.
  - exists p, w. split; [exact Hparse|]. split; [exact Hp|]. split; [exact Hn|].
    split; [exact Hp|]. split; [same|]. split; [reflexivity|].
    split; [reflexivity|]. discriminate.
Qed.

Lemma show_loop (render : Version -> Result string) pkgs : forall w,
  exists w' lines r,
    iter_pkg_versions pkgs
      (fun pkg => v <- read pkg candidate ;; text <- lift (render v) ;; print text) w
    = (w', r)
    /\ output w' = output w ++ lines
    /\ archives w' = archives w
    /\ Forall2 repins (index w) (index w')
    /\ List.length lines <= List.length pkgs
    /\ (r = Return tt -> Forall2 (shown_for render (index w)) pkgs lines)
    /\ ((forall v, exists text, render v = Return text) ->
        r = outcome (index w) pkgs).
Proof.
  unfold iter_pkg_versions, outcome.
  induction pkgs as [|t rest IH]; intros w; simpl.
  - exists w, [], (Return tt). rewrite app_nil_r.
    repeat split; auto. same.
  - destruct (resolution (index w) t) as [[n o]|e] eqn:Hres.
    + destruct (pin_step t w n o Hres)
        as (ov & p & p1 & w1 & Hparse & Hp & Hn & Hp1 & R1 & O1 & A1 & Hpin).
      assert (K1 : Forall2 kept (index w) (index w1))
        by (eapply Forall2_weaken; [apply repins_kept|exact R1]).
      destruct (render (candidate p1)) as [text|e] eqn:Hrender.
      * set (w2 := mkWorld (index w1) (output w1 ++ [text]) (archives w1)).
        destruct (IH w2) as (w3 & lines & r & H3 & O3 & A3 & R3 & L3 & F3 & T3).
        exists w3, (text :: lines), r.
        split; [|split; [|split; [|split; [|split; [|split]]]]].
        -- unfold bind at 1. unfold bind at 1. rewrite Hn.
           unfold bind at 1, read at 1. rewrite Hp1.
           unfold bind at 1, lift at 1. rewrite Hrender. unfold print at 1.
           fold w2. exact H3.
        -- rewrite O3. cbn [output w2]. now rewrite O1, <- app_assoc.
        -- rewrite A3. exact A1.
        -- eapply later_trans; [apply repins_trans|exact R1|exact R3].
        -- simpl. lia.
        -- intros Hr. constructor.
           ++ exists n, ov, p. split; [exact Hparse|]. split; [exact Hp|].
              intros v pinned Ev Hv. now rewrite <- (Hpin v pinned Ev Hv).
           ++ specialize (F3 Hr). cbn [index w2] in F3.
              eapply Forall2_impl; [|exact F3].
              intros tok line (n' & ov' & p' & Hp' & Hg' & Hr').
              pose proof (later_getitem kept kept_name n' _ _ K1) as L.
              rewrite Hg' in L.
              destruct (cache_getitem n' (index w)) as [p0|] eqn:E0; [|contradiction].
              exists n', ov', p0. split; [exact Hp'|]. split; [exact E0|].
              destruct L as (_ & V & _). intros v pinned Ev Hv.
              apply (Hr' v pinned Ev). now rewrite V.
        -- intros Htotal. rewrite (T3 Htotal). cbn [index w2].
           now rewrite (first_error_kept _ _ rest K1).
      * exists w1, [], (Raise e). rewrite app_nil_r.
        split; [|split; [|split; [|split; [|split; [|split]]]]]; auto.
        -- unfold bind at 1. unfold bind at 1. rewrite Hn.
           unfold bind at 1, read at 1. rewrite Hp1.
           unfold bind at 1, lift at 1. now rewrite Hrender.
        -- simpl. lia.
        -- discriminate.
        -- intros Htotal. destruct (Htotal (candidate p1)) as (text & Ht).
           congruence.
    + exists w, [], (Raise e). rewrite app_nil_r.
      split; [|split; [|split; [|split; [|split; [|split]]]]]; auto.
      * unfold bind at 1. unfold bind at 1.
        now rewrite next_pkg_resolution, Hres.
      * same.
      * simpl. lia.
      * discriminate.
Qed.

(** X12.  Show prints at most one text per token, in order, and exactly
    one per token when it returns; for a token with a version the text
    is that version's, not the candidate's.  It neither marks nor
    downloads, and only moves the candidates of the packages it was
    given a version for.  Without a format that can fail it returns
    exactly when every token resolves.  An empty format counts as no
    format. *)
Theorem show_prints_one_record_per_token
    (record_text : Version -> string)
    (interpolate : string -> Version -> Result string)
    (opts : ShowOpts) (w : World) :
  (exists w' lines r,
     cmd_show record_text interpolate opts w = (w', r)
     /\ output w' = output w ++ lines
     /\ List.length lines <= List.length (show_packages opts)
     /\ (r = Return 0%Z ->
         Forall2 (shown_for (show_text record_text interpolate (show_format opts))
                            (index w))
                 (show_packages opts) lines)
     /\ archives w' = archives w
     /\ Forall2 repins (index w) (index w')
     /\ (truthy (show_format opts) = false ->
         r = match outcome (index w) (show_packages opts) with
             | Return _ => Return 0%Z
             | Raise e => Raise e
             end))
  /\ cmd_show record_text interpolate (mkShowOpts (show_packages opts) (Some "")) w
     = cmd_show record_text interpolate (mkShowOpts (show_packages opts) None) w.
Proof.
  split; [|reflexivity].
  destruct (show_loop (show_text record_text interpolate (show_format opts))
              (show_packages opts) w)
    as (w' & lines & r & H & O & A & R & L & F & T).
  exists w', lines.
  exists (match r with Return _ => Return 0%Z | Raise e => Raise e end).
  split; [|split; [exact O|split; [exact L|split; [|split; [exact A|split; [exact R|]]]]]].
  - unfold cmd_show, bind at 1. rewrite H. now destruct r as [[]|e].
  - intros Hr. apply F. destruct r as [[]|e]; [reflexivity|discriminate].
  - intros Hf. rewrite T; [reflexivity|].
    intros v. unfold show_text. destruct (show_format opts) as [f|]; [|eauto].
    rewrite Hf. eauto.
Qed.

Lemma show_prints_one_record_per_token_witness :
  exists w' lines r,
    cmd_show version (fun _ v => Return (priority v))
             (mkShowOpts ["A=2.0"; "B"] None) (world0 abc) = (w', r)
    /\ output w' = [] ++ lines
    /\ List.length lines <= 2
    /\ (r = Return 0%Z ->
        Forall2 (shown_for (show_text version (fun _ v => Return (priority v)) None) abc)
                ["A=2.0"; "B"] lines)
    /\ archives w' = []
    /\ Forall2 repins abc (index w')
    /\ (truthy None = false ->
        r = match outcome abc ["A=2.0"; "B"] with
            | Return _ => Return 0%Z
            | Raise e => Raise e
            end).
Proof.
  apply (proj1 (show_prints_one_record_per_token version
                  (fun _ v => Return (priority v))
                  (mkShowOpts ["A=2.0"; "B"] None) (world0 abc))).
Defined.

Example show_pinned_version :
  cmd_show version (fun _ v => Return (priority v))
           (mkShowOpts ["A=2.0"; "B"] None) (world0 abc)
  = (mkWorld (update "A" (with_candidate (ver "2.0" "optional" [])) abc)
             ["2.0"; "1"] [], Return 0%Z).
Proof. reflexivity. Qed.

(* ================================================================== *)
(** ** The options of [init] *)

From Stdlib Require Import Permutation.

Lemma find_append {A} (f : A -> bool) l l' :
  find f (l ++ l') = match find f l with Some x => Some x | None => find f l' end.
Proof.
  induction l as [|a l IH]; simpl; [reflexivity|]. now destruct (f a).
Qed.

Lemma same_option_sym a b : same_option a b = same_option b a.
Proof. unfold same_option. apply String.eqb_sym. Qed.

Lemma same_option_eq a b : same_option a b = true <-> fold_case a = fold_case b.
Proof. unfold same_option. apply String.eqb_eq. Qed.

Lemma set_items_fst items : forall cfg acc key,
  fst (fold_left
         (fun st item =>
            (config_set (fst item) (snd item) (fst st),
             snd st ++ [(fst item ++ "=" ++ snd item)%string]))
         items (cfg, acc)) key
  = match find (fun item => same_option (fst item) key) (rev items) with
    | Some item => Some (snd item)
    | None => cfg key
    end.
Proof.
  induction items as [|[opt val] items IH]; intros cfg acc key; simpl; [reflexivity|].
  rewrite IH. rewrite find_append.
  destruct (find (fun item => same_option (fst item) key) (rev items)) as [item|];
    [reflexivity|].
  simpl. unfold config_set. rewrite (same_option_sym key opt).
  now destruct (same_option opt key).
Qed.

Lemma find_key_nodup (items : list (string * string)) opt val key :
  NoDup (option_names items) -> In (opt, val) items -> same_option opt key = true ->
  exists opt', find (fun item => same_option (fst item) key) items = Some (opt', val).
Proof.
  unfold option_names.
  induction items as [|[k v] items IH]; simpl; [contradiction|].
  intros Hnd Hin Hs. inversion Hnd as [|? ? Hk Hnd']; subst.
  destruct Hin as [E|Hin].
  - injection E as -> ->. rewrite Hs. now exists opt.
  - destruct (same_option k key) eqn:Hkk; [|auto].
    exfalso. apply Hk. apply in_map_iff. exists (opt, val). split; [|exact Hin].
    simpl. apply same_option_eq in Hs, Hkk. congruence.
Qed.

Lemma find_key_none (items : list (string * string)) key :
  ~ In (fold_case key) (option_names items) ->
  find (fun item => same_option (fst item) key) items = None.
Proof.
  unfold option_names.
  induction items as [|[k v] items IH]; simpl; [reflexivity|].
  intros Hn. destruct (same_option k key) eqn:Hkk; [|auto].
  exfalso. apply Hn. left. now apply same_option_eq.
Qed.

Lemma option_names_in items key :
  In (fold_case key) (option_names items) ->
  exists opt val, In (opt, val) items /\ same_option opt key = true.
Proof.
  unfold option_names. intros H. apply in_map_iff in H.
  destruct H as ([opt val] & E & Hin). exists opt, val.
  split; [exact Hin|]. now apply same_option_eq.
Qed.

Lemma option_names_rev items : option_names (rev items) = rev (option_names items).
Proof. apply map_rev. Qed.

Lemma set_items_nodup items cfg key :
  NoDup (option_names items) ->
  (forall opt val, In (opt, val) items -> same_option opt key = true ->
                   fst (set_items items cfg) key = Some val)
  /\ (~ In (fold_case key) (option_names items) ->
      fst (set_items items cfg) key = cfg key).
Proof.
  intros Hnd. unfold set_items. rewrite set_items_fst. split.
  - intros opt val Hin Hs.
    destruct (find_key_nodup (rev items) opt val key) as (opt' & ->).
    + rewrite option_names_rev. apply NoDup_rev. exact Hnd.
    + now apply in_rev in Hin.
    + exact Hs.
    + reflexivity.
  - intros Hn. rewrite find_key_none; [reflexivity|].
    rewrite option_names_rev. intros H. apply in_rev in H. contradiction.
Qed.

Lemma init_items_nodup arch cache_dir : NoDup (option_names (init_items arch cache_dir)).
Proof.
  unfold option_names. cbn. repeat constructor; simpl; intuition discriminate.
Qed.

Lemma init_items_under arch cache_dir key :
  In (fold_case key) (option_names (init_items arch cache_dir)) ->
  same_option key "Acquire::Languages" = true
  \/ under "APT" key = true \/ under "Dir" key = true.
Proof.
  unfold option_names, under, same_option. cbn [init_items map fst].
  intros [H|[H|[H|[H|[H|[]]]]]]; rewrite <- H; vm_compute; auto.
Qed.

Lemma init_spec arch cache_dir (c : Config) key :
  (forall opt val, In (opt, val) (init_items arch cache_dir) ->
                   same_option opt key = true ->
                   init arch cache_dir c key = Some val)
  /\ (~ In (fold_case key) (option_names (init_items arch cache_dir)) ->
      init arch cache_dir c key = if cleared key then None else c key).
Proof.
  unfold init.
  destruct (set_items_nodup (init_items arch cache_dir)
              (config_del "Dpkg" (config_del "Dir" (config_del "APT" c))) key
              (init_items_nodup arch cache_dir)) as [H1 H2].
  split; [exact H1|]. intros Hn. rewrite (H2 Hn). unfold config_del, cleared.
  destruct (under "APT" key), (under "Dir" key), (under "Dpkg" key); reflexivity.
Qed.

Lemma option_names_dec items key :
  {In (fold_case key) (option_names items)}
  + {~ In (fold_case key) (option_names items)}.
Proof. apply in_dec, string_dec. Qed.

(** X13.  apt reads option names without regard to the case of their
    letters.  After [init] has edited the configuration, each of its
    five options, however spelled, holds the value given, and nothing
    else is set under APT, Dir or Dpkg: what the system configuration
    had there, also under another spelling such as DPkg, is gone, so
    two configurations that differ only in these trees come out equal.
    Options outside the trees, Acquire::Languages apart, keep their
    values. *)
Theorem init_isolates_from_system_configuration
    (arch cache_dir : string) (cfg : Config) :
  (forall opt val key,
     In (opt, val) (init_items arch cache_dir) -> same_option key opt = true ->
     init arch cache_dir cfg key = Some val)
  /\ (forall key val,
        cleared key = true ->
        init arch cache_dir cfg key = Some val ->
        exists opt, In (opt, val) (init_items arch cache_dir)
                    /\ same_option key opt = true)
  /\ (forall key root,
        In root ["APT"; "Dir"; "Dpkg"] ->
        (same_option key root = true
         \/ String.prefix (fold_case (root ++ "::")) (fold_case key) = true) ->
        cleared key = true)
  /\ (forall cfg' : Config,
        (forall key, cleared key = false -> cfg' key = cfg key) ->
        forall key, init arch cache_dir cfg' key = init arch cache_dir cfg key)
  /\ (forall key,
        cleared key = false ->
        same_option key "Acquire::Languages" = false ->
        init arch cache_dir cfg key = cfg key).
Proof.
  pose proof (init_spec arch cache_dir) as Hspec.
  split; [|split; [|split; [|split]]].
  - intros opt val key Hin Hs. apply (proj1 (Hspec cfg key) opt val Hin).
    now rewrite same_option_sym.
  - intros key val Hu Hv.
    destruct (option_names_dec (init_items arch cache_dir) key) as [Hin|Hn].
    + apply option_names_in in Hin. destruct Hin as (opt & v & Hin & Hs).
      rewrite (proj1 (Hspec cfg key) opt v Hin Hs) in Hv. injection Hv as <-.
      exists opt. split; [exact Hin|]. now rewrite same_option_sym.
    + rewrite (proj2 (Hspec cfg key) Hn), Hu in Hv. discriminate.
  - intros key root Hroot H. unfold cleared, under.
    assert (G : same_option key root
                || String.prefix (fold_case (root ++ "::")) (fold_case key) = true)
      by (destruct H as [-> | ->]; [reflexivity|apply orb_true_r]).
    destruct Hroot as [<-|[<-|[<-|[]]]]; rewrite G; rewrite ?orb_true_r; reflexivity.
  - intros cfg' Hagree key.
    destruct (option_names_dec (init_items arch cache_dir) key) as [Hin|Hn].
    + apply option_names_in in Hin. destruct Hin as (opt & v & Hin & Hs).
      now rewrite (proj1 (Hspec cfg key) opt v Hin Hs),
                  (proj1 (Hspec cfg' key) opt v Hin Hs).
    + rewrite (proj2 (Hspec cfg key) Hn), (proj2 (Hspec cfg' key) Hn).
      destruct (cleared key) eqn:Hu; [reflexivity|]. now apply Hagree.
  - intros key Hu Hne. rewrite (proj2 (Hspec cfg key)); [now rewrite Hu|].
    intros Hin. apply init_items_under in Hin. unfold cleared in Hu.
    destruct Hin as [E|[H|H]]; [congruence| |]; rewrite H in Hu;
      [discriminate|]. rewrite orb_true_r in Hu. discriminate.
Qed.

Lemma init_isolates_from_system_configuration_witness :
  init "armhf" "/home/u/.cache/apt-local"
       (fun key => if key =? "Dir::Etc" then Some "/etc/apt" else None)
       "dir" = Some "/home/u/.cache/apt-local"
  /\ cleared "DPkg::Lock::Timeout" = true
  /\ init "armhf" "/home/u/.cache/apt-local"
          (fun key => if key =? "quiet" then Some "1" else None) "quiet"
     = (fun key => if key =? "quiet" then Some "1" else None) "quiet".
Proof.
  split; [|split].
  - apply (proj1 (init_isolates_from_system_configuration "armhf"
             "/home/u/.cache/apt-local"
             (fun key => if key =? "Dir::Etc" then Some "/etc/apt" else None))
             "Dir").
    + simpl. auto.
    + reflexivity.
  - apply (proj1 (proj2 (proj2 (init_isolates_from_system_configuration "armhf"
             "/home/u/.cache/apt-local" (fun _ => None))))
             "DPkg::Lock::Timeout" "Dpkg").
    + simpl. auto.
    + right. reflexivity.
  - apply (proj2 (proj2 (proj2 (proj2 (init_isolates_from_system_configuration "armhf"
             "/home/u/.cache/apt-local"
             (fun key => if key =? "quiet" then Some "1" else None)))))).
    + reflexivity.
    + reflexivity.
Defined.

(** [del config['Dpkg']] also clears what the system wrote as DPkg. *)
Example init_clears_other_spellings :
  init "armhf" "/c"
       (fun key => if key =? "DPkg::Lock::Timeout" then Some "60" else None)
       "DPkg::Lock::Timeout" = None.
Proof. reflexivity. Qed.

(** X14.  The configuration [init] builds does not depend on the order
    in which the dict of options yields its items, and editing twice
    gives what editing once gives. *)
Theorem init_is_independent_of_dict_order
    (arch cache_dir : string) (cfg : Config) :
  (forall items,
     Permutation (init_items arch cache_dir) items ->
     forall key,
       fst (set_items items
              (config_del "Dpkg" (config_del "Dir" (config_del "APT" cfg)))) key
       = init arch cache_dir cfg key)
  /\ (forall key,
        init arch cache_dir (init arch cache_dir cfg) key
        = init arch cache_dir cfg key).
Proof.
  split.
  - intros items Hperm key. unfold init.
    set (c0 := config_del "Dpkg" (config_del "Dir" (config_del "APT" cfg))).
    assert (Hnd : NoDup (option_names items)).
    { eapply Permutation_NoDup; [apply Permutation_map; exact Hperm|].
      apply init_items_nodup. }
    destruct (set_items_nodup items c0 key Hnd) as [H1 H2].
    destruct (set_items_nodup (init_items arch cache_dir) c0 key
                (init_items_nodup arch cache_dir)) as [G1 G2].
    destruct (option_names_dec (init_items arch cache_dir) key) as [Hin|Hn].
    + apply option_names_in in Hin. destruct Hin as (opt & v & Hin & Hs).
      rewrite (G1 opt v Hin Hs). apply (H1 opt v); [|exact Hs].
      eapply Permutation_in; eauto.
    + rewrite (G2 Hn). apply H2. intros Hin. apply Hn.
      eapply Permutation_in; [apply Permutation_map, Permutation_sym; exact Hperm|].
      exact Hin.
  - intros key.
    destruct (option_names_dec (init_items arch cache_dir) key) as [Hin|Hn].
    + apply option_names_in in Hin. destruct Hin as (opt & v & Hin & Hs).
      now rewrite (proj1 (init_spec arch cache_dir (init arch cache_dir cfg) key)
                     opt v Hin Hs),
                  (proj1 (init_spec arch cache_dir cfg key) opt v Hin Hs).
    + rewrite (proj2 (init_spec arch cache_dir (init arch cache_dir cfg) key) Hn).
      destruct (cleared key) eqn:Hu; [|reflexivity].
      now rewrite (proj2 (init_spec arch cache_dir cfg key) Hn), Hu.
Qed.

Lemma init_is_independent_of_dict_order_witness :
  fst (set_items (rev (init_items "amd64" "/c"))
         (config_del "Dpkg" (config_del "Dir" (config_del "APT" (fun _ => None)))))
      "APT::Architecture"
  = init "amd64" "/c" (fun _ => None) "APT::Architecture".
Proof.
  apply (proj1 (init_is_independent_of_dict_order "amd64" "/c" (fun _ => None))).
  apply Permutation_rev.
Defined.

(* ================================================================== *)
(** ** Requests without versions *)






Lemma resolution_plain c t :
  count "=" t = 0 -> count "_" t = 0 ->
  resolution c t = match cache_getitem t c with
                   | Some _ => Return (t, None)
                   | None => Raise (KeyError_package t)
                   end.
Proof. intros He Hu. unfold resolution. now rewrite parse_plain. Qed.







(* ================================================================== *)
(** ** A pin lasts for the rest of the run *)

Lemma iter_app xs ys (body : string -> M unit) w :
  iter_pkg_versions (xs ++ ys) body w =
  match iter_pkg_versions xs body w with
  | (w1, Return _) => iter_pkg_versions ys body w1
  | (w1, Raise e) => (w1, Raise e)
  end.
Proof. unfold iter_pkg_versions. apply for_each_app. Qed.

Lemma fetch_step_eq dest t r w :
  iter_pkg_versions (t :: r) (fun pkg => fetch_binary pkg dest) w =
  match resolution (index w) t with
  | Raise e => (w, Raise e)
  | Return (m, o) =>
      let c1 := match o with
                | Some pinned => update m (with_candidate pinned) (index w)
                | None => index w
                end in
      match cache_getitem m c1 with
      | Some p =>
          iter_pkg_versions r (fun pkg => fetch_binary pkg dest)
            (mkWorld c1 (output w)
               (archives w ++ [mkArtifact (name p) (version (candidate p)) dest]))
      | None => (mkWorld c1 (output w) (archives w), Raise (KeyError_package m))
      end
  end.
Proof.
  unfold iter_pkg_versions. simpl. unfold bind at 1. unfold bind at 1.
  rewrite next_pkg_resolution.
  destruct (resolution (index w) t) as [[m [pinned|]]|e]; [| |reflexivity].
  - cbv zeta.
    destruct (cache_getitem m (update m (with_candidate pinned) (index w)))
      as [p|] eqn:Hp.
    + unfold bind at 1.
      rewrite (fetch_binary_spec m dest _ p); [reflexivity|exact Hp].
    + unfold fetch_binary, bind, read. cbn [index]. rewrite Hp. reflexivity.
  - cbv zeta. destruct (cache_getitem m (index w)) as [p|] eqn:Hp.
    + unfold bind at 1.
      rewrite (fetch_binary_spec m dest _ p); [|exact Hp]. now destruct w.
    + unfold fetch_binary, bind, read. rewrite Hp. now destruct w.
Qed.

Lemma fetch_keeps_pin dest n pinned mid : forall w,
  (forall t u, In t mid -> parse t <> Return (n, Some u)) ->
  (exists p, cache_getitem n (index w) = Some p /\ candidate p = pinned) ->
  exists p,
    cache_getitem n
      (index (fst (iter_pkg_versions mid (fun pkg => fetch_binary pkg dest) w)))
    = Some p /\ candidate p = pinned.
Proof.
  induction mid as [|t r IH]; intros w Hmid Hinv; [exact Hinv|].
  rewrite fetch_step_eq.
  destruct (resolution (index w) t) as [[m o]|e] eqn:Hres; [|exact Hinv].
  assert (Hinv1 : exists p,
    cache_getitem n match o with
                    | Some other => update m (with_candidate other) (index w)
                    | None => index w
                    end = Some p /\ candidate p = pinned).
  { destruct o as [other|]; [|exact Hinv].
    destruct (resolution_return _ _ _ _ Hres) as (ov & p & Hp & _ & Hov).
    destruct ov as [u|]; [|contradiction].
    assert (Hne : n <> m) by (intros ->; apply (Hmid t u); [now left|exact Hp]).
    now rewrite getitem_update_other by (auto; reflexivity). }
  cbv zeta.
  destruct (cache_getitem m _) as [q|]; [|exact Hinv1].
  apply IH; [intros t0 u Hin; apply Hmid; now right|exact Hinv1].
Qed.

(** X17.  A version given for a package lasts for the rest of the run:
    when fetch is given "n=v" and later the bare name [n], with no other
    version for [n] in between, the bare name fetches version [v] again,
    not the candidate the index had. *)
Theorem fetch_reuses_an_earlier_pin
    (fs : string -> option (list string)) (opts : FetchOpts) (w : World)
    (pre mid post : list string) (token n v : string)
    (Hreq : fetch_requested fs opts = Return (pre ++ token :: mid ++ n :: post))
    (Hparse : parse token = Return (n, Some v))
    (Hplain : count "=" n = 0 /\ count "_" n = 0)
    (Hmid : forall t u, In t mid -> parse t <> Return (n, Some u))
    (Hres : forallb (resolvable (index w)) (pre ++ token :: mid) = true) :
  exists w' r arts1 arts2,
    cmd_fetch fs opts w = (w', r)
    /\ archives w'
       = archives w ++ arts1 ++ mkArtifact n v (fetch_dest opts) :: arts2
    /\ List.length arts1 = List.length pre + 1 + List.length mid.
Proof.
  remember (fetch_dest opts) as dest eqn:Hdest.
  rewrite forallb_app in Hres. apply andb_prop in Hres. destruct Hres as [Hpre Hrest].
  simpl in Hrest. apply andb_prop in Hrest. destruct Hrest as [Htok Hmidr].
  (* the tokens before *)
  destruct (fetch_loop dest pre w) as (w1 & a1 & H1 & R1 & _ & A1 & _ & F1).
  specialize (F1 (proj1 (first_error_none _ _) Hpre)).
  assert (K1 : Forall2 kept (index w) (index w1))
    by (eapply Forall2_weaken; [apply repins_kept|exact R1]).
  unfold outcome in H1. rewrite (proj1 (first_error_none _ _) Hpre) in H1.
  (* the token with the version *)
  unfold resolvable in Htok. rewrite <- (resolution_kept _ _ token K1) in Htok.
  destruct (resolution (index w1) token) as [[m o]|e] eqn:Hrt; [|discriminate].
  destruct (resolution_return _ _ _ _ Hrt) as (ov & p & Hp & Hg & Hov).
  rewrite Hparse in Hp. injection Hp as <- <-.
  destruct o as [pinned|]; [|contradiction].
  pose proof (proj1 (versions_getitem_version _ _ _ Hov)) as Hv.
  set (c1 := update n (with_candidate pinned) (index w1)).
  assert (Hg1 : cache_getitem n c1 = Some (with_candidate pinned p)).
  { unfold c1. rewrite getitem_update by reflexivity. rewrite Hg. simpl.
    now rewrite (cache_getitem_name _ _ _ Hg), String.eqb_refl. }
  set (w3 := mkWorld c1 (output w1) (archives w1 ++ [mkArtifact n v dest])).
  assert (K3 : Forall2 kept (index w) (index w3)).
  { cbn [index w3]. eapply later_trans; [apply kept_trans|exact K1|].
    unfold c1. updated. }
  (* the tokens in between *)
  destruct (fetch_loop dest mid w3) as (w4 & a4 & H4 & R4 & _ & A4 & _ & F4).
  assert (Hmid3 : first_error (index w3) mid = None).
  { rewrite (first_error_kept _ _ mid K3). now apply first_error_none. }
  specialize (F4 Hmid3). unfold outcome in H4. rewrite Hmid3 in H4.
  destruct (fetch_keeps_pin dest n pinned mid w3 Hmid) as (q & Hq & Cq).
  { exists (with_candidate pinned p). split; [exact Hg1|reflexivity]. }
  rewrite H4 in Hq. cbn [fst] in Hq.
  (* the bare name *)
  destruct Hplain as [He Hu].
  destruct (fetch_loop dest post
              (mkWorld (index w4) (output w4)
                 (archives w4 ++ [mkArtifact (name q) (version (candidate q)) dest])))
    as (w5 & a5 & H5 & _ & _ & A5 & _).
  exists w5.
  exists (match outcome (index w4) post with
          | Return _ => Return 0%Z
          | Raise e => Raise e
          end).
  exists (a1 ++ mkArtifact n v dest :: a4), a5.
  split; [|split].
  - unfold cmd_fetch, bind at 1, lift. rewrite Hreq. unfold bind at 1.
    rewrite <- Hdest. rewrite iter_app, H1.
    rewrite fetch_step_eq, Hrt. cbv zeta. fold c1. rewrite Hg1.
    cbn [name with_candidate candidate]. rewrite (cache_getitem_name _ _ _ Hg), Hv.
    fold w3. rewrite iter_app, H4.
    rewrite fetch_step_eq, (resolution_plain _ n He Hu), Hq. cbv zeta. rewrite Hq.
    rewrite H5. cbn [index]. now destruct (outcome (index w4) post).
  - rewrite A5. cbn [archives]. rewrite A4. cbn [archives w3]. rewrite A1.
    rewrite (cache_getitem_name _ _ _ Hq), Cq, Hv.
    rewrite <- ?app_assoc. simpl. rewrite <- ?app_assoc. reflexivity.
  - rewrite length_app. simpl.
    rewrite (Forall2_length F1), (Forall2_length F4). lia.
Qed.

Lemma fetch_reuses_an_earlier_pin_witness :
  exists w' r arts1 arts2,
    cmd_fetch (fun _ => None) (mkFetchOpts "/tmp" ["B"; "A=2.0"; "C"; "A"] false)
              (world0 abc) = (w', r)
    /\ archives w' = [] ++ arts1 ++ mkArtifact "A" "2.0" "/tmp" :: arts2
    /\ List.length arts1 = 1 + 1 + 1.
Proof.
  apply (fetch_reuses_an_earlier_pin (fun _ => None)
           (mkFetchOpts "/tmp" ["B"; "A=2.0"; "C"; "A"] false) (world0 abc)
           ["B"] ["C"] [] "A=2.0" "A" "2.0" eq_refl eq_refl (conj eq_refl eq_refl)).
  - intros t u [<-|[]]. discriminate.
  - reflexivity.
Defined.
